(** * The fetch-state lifecycle and the title holder of easy-state-hook-examples

    A shallow embedding of
    - [fetch-store-testing/src/fetchStore.js] (the store factory [fetchStore]),
    - [poke-hook/src/useFetch.js] (the hook [useFetch]),
    - [titleStore.js] and [useTitle.js] (the title holder),
    together with the JavaScript run-time notions they rely on: objects read
    by property name, promises that settle once, [async] functions that
    suspend at [await], and [try]/[catch]/[finally]. *)

From stdpp Require Import base strings gmap list.

Local Open Scope string_scope.
Local Open Scope list_scope.
Set Warnings "-register-all".

(** ** JavaScript values and objects *)

(** The values that flow through the examples: JSON payloads, thrown
    failures, and the method stored in the resource object. *)
Inductive value : Type :=
| VUndefined
| VNull
| VBool (b : bool)
| VNumber (n : Z)
| VString (s : string)
| VArray (items : list value)
| VObject (fields : list (string * value))
| VError (message : string)
| VFunction (name : string).

(** An object is a finite map from property names to values. *)
Abbreviation obj := (gmap string value).

(** [o.k]: reading a property that was never assigned yields [undefined]. *)
Definition obj_get (o : obj) (k : string) : value :=
  default VUndefined (o !! k).

(** [ToBoolean], as used by [loading ? ... : error ? ... : ...]. *)
Definition is_truthy (v : value) : bool :=
  match v with
  | VUndefined | VNull => false
  | VBool b => b
  | VNumber n => negb (Z.eqb n 0)
  | VString s => negb (String.eqb s "")
  | VArray _ | VObject _ | VError _ | VFunction _ => true
  end.

(** ** Promises *)

(** The final state of a promise: fulfilled with a result or rejected with
    the thrown value. *)
Inductive settled (A : Type) : Type :=
| Fulfilled (a : A)
| Rejected (e : value).
Arguments Fulfilled {A} a.
Arguments Rejected {A} e.

(** [p.then(f)]: a rejection passes through, a fulfilment is fed to [f],
    whose own result (or throw) settles the derived promise. *)
Definition promise_then {A B : Type} (p : settled A) (f : A -> settled B) : settled B :=
  match p with
  | Fulfilled a => f a
  | Rejected e => Rejected e
  end.

(** A response of the network layer; [json] is what [resp.json()] settles
    to: the decoded body, or the decoding failure. *)
Record response : Type := Response { json : settled value }.

(** A promise as held by the program before the network has answered: the
    request it depends on and the [then] chain applied to the answer. *)
Record promise : Type := Promise {
  source : nat;
  chain : settled response -> settled value
}.

(** The state of the promise returned by a call of an [async] function. *)
Inductive promise_state : Type :=
| Pending
| Resolved (v : value)
| RejectedWith (e : value).

(** ** Bodies of async functions *)

(** A function body as a tree of its effects: updating the state object,
    calling the global [fetch] (which hands back a promise at once; its
    failures arrive as rejections), suspending at an [await], completing
    normally, or completing abruptly with a thrown value. *)
Inductive prog (A : Type) : Type :=
| Ret (a : A)
| Throw (e : value)
| SetState (f : obj -> obj) (k : prog A)
| Fetch (url : string) (k : nat -> prog A)
| Await (p : promise) (k : settled value -> prog A).
Arguments Ret {A} a.
Arguments Throw {A} e.
Arguments SetState {A} f k.
Arguments Fetch {A} url k.
Arguments Await {A} p k.

Fixpoint bind {A B : Type} (m : prog A) (g : A -> prog B) : prog B :=
  match m with
  | Ret a => g a
  | Throw e => Throw e
  | SetState f k => SetState f (bind k g)
  | Fetch url k => Fetch url (fun rid => bind (k rid) g)
  | Await p k => Await p (fun s => bind (k s) g)
  end.

Declare Scope prog_scope.
Delimit Scope prog_scope with prog.
Notation "x <- m ;; k" := (bind m (fun x => k))
  (at level 100, m at next level, right associativity) : prog_scope.
Notation "m ;; k" := (bind m (fun _ => k))
  (at level 100, right associativity) : prog_scope.
Local Open Scope prog_scope.

(** [try { body } catch (e) { handler e }]. *)
Fixpoint try_catch {A : Type} (body : prog A) (handler : value -> prog A) : prog A :=
  match body with
  | Ret a => Ret a
  | Throw e => handler e
  | SetState f k => SetState f (try_catch k handler)
  | Fetch url k => Fetch url (fun rid => try_catch (k rid) handler)
  | Await p k => Await p (fun s => try_catch (k s) handler)
  end.

(** [try { body } finally { finalizer }]: the finalizer runs on both kinds
    of completion and the completion of the body is then resumed. *)
Fixpoint try_finally {A : Type} (body : prog A) (finalizer : prog unit) : prog A :=
  match body with
  | Ret a => finalizer ;; Ret a
  | Throw e => finalizer ;; Throw e
  | SetState f k => SetState f (try_finally k finalizer)
  | Fetch url k => Fetch url (fun rid => try_finally (k rid) finalizer)
  | Await p k => Await p (fun s => try_finally (k s) finalizer)
  end.

(** [o.k = v] on the shared object. *)
Definition assign (k : string) (v : value) : prog unit :=
  SetState (fun o => <[k := v]> o) (Ret tt).

(** [setState(updater)] with a functional updater. *)
Definition setState (updater : obj -> obj) : prog unit :=
  SetState updater (Ret tt).

(** [await p]: the value of a fulfilled promise, a throw for a rejected one. *)
Definition await (p : promise) : prog value :=
  Await p (fun s => match s with Fulfilled v => Ret v | Rejected e => Throw e end).

(** [function fetchJSON(url) { return fetch(url).then(resp => resp.json()); }] *)
Definition fetchJSON (url : string) : prog promise :=
  Fetch url (fun rid => Ret (Promise rid (fun r => promise_then r json))).

(** ** The two fetchers *)

(** fetchStore.js, lines 5-15: the [fetch] method of the resource store. *)
Definition fetchStore_fetch (baseURL path : string) : prog unit :=
  assign "loading" (VBool true) ;;
  try_finally
    (try_catch
       (p <- fetchJSON (baseURL +:+ path) ;;
        d <- await p ;;
        assign "data" d ;;
        assign "error" VUndefined)
       (fun error => assign "error" error))
    (assign "loading" (VBool false)).

(** useFetch.js (poke-hook), lines 7-17: the [fetch] callback of the hook;
    [{ ...state, k: v }] copies the state and then sets [k]. *)
Definition useFetch_fetch (baseURL path : string) : prog unit :=
  setState (fun state => <["loading" := VBool true]> state) ;;
  try_finally
    (try_catch
       (p <- fetchJSON (baseURL +:+ path) ;;
        data <- await p ;;
        setState (fun state => <["error" := VUndefined]> (<["data" := data]> state)))
       (fun error => setState (fun state => <["error" := error]> state)))
    (setState (fun state => <["loading" := VBool false]> state)).

(** The version of [useFetch] with plain [setState] calls, which the README
    presents first and then replaces by the one above. [state] is the state
    of the render in which the callback was created; the callback closes
    over it. *)
Definition useFetch_closure_fetch (state : obj) (baseURL path : string) : prog unit :=
  setState (fun _ => {[ "loading" := VBool true ]}) ;;
  try_finally
    (try_catch
       (p <- fetchJSON (baseURL +:+ path) ;;
        data <- await p ;;
        setState (fun _ => <["error" := VUndefined]> (<["data" := data]> state)))
       (fun error => setState (fun _ => <["error" := error]> state)))
    (setState (fun state => <["loading" := VBool false]> state)).

(** The object passed to [store(...)] in [fetchStore]: only the method. *)
Definition fetchStore_init : obj := {[ "fetch" := VFunction "fetch" ]}.

(** [useState({})] in [useFetch]. *)
Definition useFetch_init : obj := ∅.

(** ** The event loop *)

(** What can be observed of a running page: the state object, the URLs
    handed to the global [fetch] so far, the calls suspended at their
    [await] (by the request they wait for), and the promise of every call. *)
Record world : Type := World {
  state : obj;
  requests : list string;
  suspended : gmap nat (nat * (settled response -> prog unit));
  promises : list promise_state
}.

(** Run one call (number [cid]) until it completes or suspends. *)
Fixpoint exec (cid : nat) (p : prog unit) (w : world) : world :=
  match p with
  | Ret _ =>
      World (state w) (requests w) (suspended w)
            (<[cid := Resolved VUndefined]> (promises w))
  | Throw e =>
      World (state w) (requests w) (suspended w)
            (<[cid := RejectedWith e]> (promises w))
  | SetState f k =>
      exec cid k (World (f (state w)) (requests w) (suspended w) (promises w))
  | Fetch url k =>
      exec cid (k (length (requests w)))
           (World (state w) (requests w ++ [url]) (suspended w) (promises w))
  | Await p k =>
      World (state w) (requests w)
            (<[source p := (cid, fun r => k (chain p r))]> (suspended w))
            (promises w)
  end.

(** Calling an async function: a pending promise is created and the body
    runs synchronously up to its first [await]. *)
Definition call (body : prog unit) (w : world) : world :=
  exec (length (promises w)) body
       (World (state w) (requests w) (suspended w) (promises w ++ [Pending])).

(** The network answers request [rid]: the call suspended on it resumes. *)
Definition settle (rid : nat) (r : settled response) (w : world) : world :=
  match suspended w !! rid with
  | Some (cid, k) =>
      exec cid (k r)
           (World (state w) (requests w) (delete rid (suspended w)) (promises w))
  | None => w
  end.

Inductive event : Type :=
| Call (path : string)
| Settle (rid : nat) (r : settled response).

Section Fetcher.

(** The body of [fetch], for either implementation. *)
Variable fetch_body : string -> prog unit.

Definition step (w : world) (ev : event) : world :=
  match ev with
  | Call path => call (fetch_body path) w
  | Settle rid r => settle rid r w
  end.

Definition run (w : world) (evs : list event) : world :=
  foldl step w evs.

End Fetcher.

(** [fetchStore(baseURL)] and [useFetch(baseURL)], before any call. *)
Definition fresh (init : obj) : world := World init [] ∅ [].

Definition run_store (baseURL : string) (evs : list event) : world :=
  run (fetchStore_fetch baseURL) (fresh fetchStore_init) evs.

Definition run_hook (baseURL : string) (evs : list event) : world :=
  run (useFetch_fetch baseURL) (fresh useFetch_init) evs.

(** Request [rid] is in flight: some call is suspended on it. *)
Definition in_flight (w : world) (rid : nat) : Prop :=
  is_Some (suspended w !! rid).

(** The decoded body of the test's mocked response. *)
Definition ok (d : value) : settled response := Fulfilled (Response (Fulfilled d)).

Definition TEST_URL : string := "https://test.com/".

(** ** What a call and a completion do to the world *)

(** The writes of the resumed [try]/[catch]/[finally] once the awaited
    promise has settled, as one function on the state object. *)
Definition fetch_finish (r : settled response) (st : obj) : obj :=
  match promise_then r json with
  | Fulfilled d =>
      <["loading" := VBool false]> (<["error" := VUndefined]> (<["data" := d]> st))
  | Rejected e =>
      <["loading" := VBool false]> (<["error" := e]> st)
  end.

(** A continuation that, whatever the answer, performs [fetch_finish],
    suspends no more, issues no request and resolves its promise. *)
Definition completes (k : settled response -> prog unit) : Prop :=
  forall r cid w,
    exec cid (k r) w =
    World (fetch_finish r (state w)) (requests w) (suspended w)
          (<[cid := Resolved VUndefined]> (promises w)).

(** The world right after a call of [fetch(p)] that suspended with [k]. *)
Definition fetch_start (b p : string) (k : settled response -> prog unit)
    (w : world) : world :=
  World (<["loading" := VBool true]> (state w))
        (requests w ++ [b +:+ p])
        (<[length (requests w) := (length (promises w), k)]> (suspended w))
        (promises w ++ [Pending]).

Definition fetcher (b : string) (body : string -> prog unit) : Prop :=
  forall p, exists k, completes k /\ forall w, call (body p) w = fetch_start b p k w.

(** Every suspended call will complete, and waits for a request that was
    issued; no promise of a call has been rejected. *)
Definition wf (w : world) : Prop :=
  (forall rid cid k, suspended w !! rid = Some (cid, k) ->
     completes k /\ rid < length (requests w) /\ cid < length (promises w)) /\
  (forall c e, promises w !! c <> Some (RejectedWith e)).

(** The paths of the calls made in a sequence of events, in order. *)
Definition called_paths (evs : list event) : list string :=
  omap (fun ev => match ev with Call p => Some p | Settle _ _ => None end) evs.

(** A store whose previous fetch failed, so that [error] is set. *)
Definition after_failed_fetch : world :=
  run_store TEST_URL [Call "missing"; Settle 0 (Rejected (VError "Failed to fetch"))].

(** A store holding the payload of an earlier successful fetch. *)
Definition after_successful_fetch : world :=
  run_store TEST_URL [Call "resource"; Settle 0 (ok (VString "Some data"))].

(** ** Non-overlapping and overlapping calls *)

(** No call is made while another one is outstanding. *)
Fixpoint no_overlap (body : string -> prog unit) (w : world) (evs : list event) : Prop :=
  match evs with
  | [] => True
  | Call p :: evs' => suspended w = ∅ /\ no_overlap body (call (body p) w) evs'
  | Settle rid r :: evs' => no_overlap body (settle rid r w) evs'
  end.

(** [loading] as it reads when nothing is in flight: unset before the first
    call, false once a call has completed. *)
Definition idle_loading (w : world) : value :=
  match promises w with
  | [] => VUndefined
  | _ :: _ => VBool false
  end.

(** Nothing in flight and [loading] not true, or exactly one request in
    flight and [loading] true. *)
Definition loading_tracks (w : world) : Prop :=
  (suspended w = ∅ /\ obj_get (state w) "loading" = idle_loading w) \/
  (exists rid ck, suspended w = {[rid := ck]} /\ obj_get (state w) "loading" = VBool true).

(** What the completion with answer [r] leaves in the state: [loading]
    false and, for a decoded body, that body in [data] and [error]
    undefined; for a failure, the thrown value in [error] and [data] as the
    state [before] the completion had it. *)
Definition completion_prevails (before after : world) (r : settled response) : Prop :=
  obj_get (state after) "loading" = VBool false /\
  match promise_then r json with
  | Fulfilled d =>
      obj_get (state after) "data" = d /\ obj_get (state after) "error" = VUndefined
  | Rejected e =>
      obj_get (state after) "error" = e /\ state after !! "data" = state before !! "data"
  end.

(** ** Store and hook compared *)

(** The tuple {loading, data, error} as a consumer reads it off the state. *)
Definition fetch_state (o : obj) : value * value * value :=
  (obj_get o "loading", obj_get o "data", obj_get o "error").

(** The two worlds cannot be told apart by a consumer or by the network. *)
Definition agree (ws wh : world) : Prop :=
  fetch_state (state ws) = fetch_state (state wh) /\
  requests ws = requests wh /\
  promises ws = promises wh /\
  forall rid,
    match suspended ws !! rid, suspended wh !! rid with
    | Some (c1, k1), Some (c2, k2) => c1 = c2 /\ completes k1 /\ completes k2
    | None, None => True
    | _, _ => False
    end.

(** ** The title holder *)

(** The part of a page the title holder touches: the held value
    ([title.value] of the store, the [title] state of the hook), the
    document title, and every value assigned to [document.title] so far. *)
Record page : Type := Page {
  held : string;
  document_title : string;
  title_writes : list string
}.

(** A change event of the input field, as far as it is read:
    [ev.target.value]. *)
Record change_event : Type := ChangeEvent { target_value : string }.

(** [document.title = v]. *)
Definition set_document_title (v : string) (pg : page) : page :=
  Page (held pg) v (title_writes pg ++ [v]).

(** The effect of both versions: [document.title = title.value],
    respectively [document.title = title]. *)
Definition title_effect (pg : page) : page :=
  set_document_title (held pg) pg.

(** Modelled from the spec: [autoEffect] of the reactive store library, which
    is not part of this repository. The callback runs once when it is
    registered and is rerun whenever a store field it reads changes. *)
Definition autoEffect (effect : page -> page) (pg : page) : page :=
  effect pg.

(** Modelled from the spec: an assignment to a field of a reactive store,
    here [title.value = v]. The field is written, and the registered effect
    reading it is rerun when the value has changed. *)
Definition store_set_value (effect : page -> page) (v : string) (pg : page) : page :=
  let pg' := Page v (document_title pg) (title_writes pg) in
  if String.eqb (held pg) v then pg' else effect pg'.

(** [useEffect(effect, [title])] of the rendering library, which is not part
    of this repository, at the first render: the effect runs once after it. *)
Definition useEffect_mount (effect : page -> page) (pg : page) : page :=
  effect pg.

(** [setTitle(v)] of the rendering library's [useState], followed by the
    render it causes: an equal value changes nothing, a new one becomes the
    state and, being a dependency of the effect, makes the effect run. *)
Definition setTitle (effect : page -> page) (v : string) (pg : page) : page :=
  if String.eqb (held pg) v then pg
  else effect (Page v (document_title pg) (title_writes pg)).

(** titleStore.js: the store holds [initalTitle] and the effect is
    registered; [doc] is the document title found on the page. *)
Definition titleStore (initalTitle doc : string) : page :=
  autoEffect title_effect (Page initalTitle doc []).

(** [onChange: ev => (title.value = ev.target.value)]. *)
Definition titleStore_onChange (ev : change_event) (pg : page) : page :=
  store_set_value title_effect (target_value ev) pg.

(** useTitle.js: [useState(initalTitle)] and the effect on [[title]]. *)
Definition useTitle (initalTitle doc : string) : page :=
  useEffect_mount title_effect (Page initalTitle doc []).

(** [onChange = ev => setTitle(ev.target.value)]. *)
Definition useTitle_onChange (ev : change_event) (pg : page) : page :=
  setTitle title_effect (target_value ev) pg.

(** The value held after a sequence of change events. *)
Definition last_value (initalTitle : string) (evs : list change_event) : string :=
  default initalTitle (last (target_value <$> evs)).

(** ** The views *)

(** What a view puts inside its [<div>]: a literal text, or
    [JSON.stringify] of a value (the text it produces is not modelled). *)
Inductive shown : Type :=
| Text (s : string)
| Stringified (d : value).

(** [loading ? "Loading ..." : error ? "Error!" : JSON.stringify(data)], the
    expression every view of the examples renders, on the object whose
    [loading], [error] and [data] it reads. *)
Definition display (o : obj) : shown :=
  if is_truthy (obj_get o "loading") then Text "Loading ..."
  else if is_truthy (obj_get o "error") then Text "Error!"
  else Stringified (obj_get o "data").

(** ** The pokemon lookup: a title holder composed with a fetcher *)

Definition POKE_API : string := "https://pokeapi.co/api/v2/pokemon/".

(** [{ name: titleStore(initialName), data: fetchStore(POKE_API) }] of
    pokeStore.js, and likewise the two hooks used by usePokemon.js: the
    title holder with the document it writes to, and the fetcher with the
    network it talks to. *)
Record pokemon : Type := Pokemon {
  name : page;
  data : world
}.

(** What happens to a pokemon lookup: the user edits the input field, or the
    network answers a request. *)
Inductive poke_event : Type :=
| Typed (ev : change_event)
| Answered (rid : nat) (r : settled response).

(** pokeStore.js, line 12: the reaction
    [() => pokemon.data.fetch(pokemon.name.value)]. It reads the name and
    none of [loading], [data], [error]. *)
Definition pokeStore_effect (pk : pokemon) : pokemon :=
  Pokemon (name pk) (call (fetchStore_fetch POKE_API (held (name pk))) (data pk)).

(** pokeStore.js: both stores are created and the reaction is registered,
    which runs it once. *)
Definition pokeStore (initialName doc : string) : pokemon :=
  pokeStore_effect (Pokemon (titleStore initialName doc) (fresh fetchStore_init)).

(** [pokemon.name.onChange(ev)] on the composed store: the assignment to
    [title.value] reruns, when the value has changed, the reaction of
    [titleStore] and then the one of [pokeStore]. *)
Definition pokeStore_onChange (ev : change_event) (pk : pokemon) : pokemon :=
  let pk' := Pokemon (titleStore_onChange ev (name pk)) (data pk) in
  if String.eqb (held (name pk)) (target_value ev) then pk' else pokeStore_effect pk'.

Definition pokeStore_step (pk : pokemon) (e : poke_event) : pokemon :=
  match e with
  | Typed ev => pokeStore_onChange ev pk
  | Answered rid r => Pokemon (name pk) (settle rid r (data pk))
  end.

Definition pokeStore_run (initialName doc : string) (evs : list poke_event) : pokemon :=
  foldl pokeStore_step (pokeStore initialName doc) evs.

(** usePokemon.js, lines 11-13: the effect [() => { fetch(name); }] with
    dependencies [[fetch, name]]; [fetch] is the callback of
    [useFetch(POKE_API)], the same one at every render. *)
Definition usePokemon_effect (pk : pokemon) : pokemon :=
  Pokemon (name pk) (call (useFetch_fetch POKE_API (held (name pk))) (data pk)).

(** usePokemon.js: the first render and the effects run after it. *)
Definition usePokemon (initialName doc : string) : pokemon :=
  usePokemon_effect (Pokemon (useTitle initialName doc) (fresh useFetch_init)).

(** [onNameChange(ev)] and the render it causes: the effect of [useTitle]
    and then the one of [usePokemon] run when the name has changed. *)
Definition usePokemon_onNameChange (ev : change_event) (pk : pokemon) : pokemon :=
  let pk' := Pokemon (useTitle_onChange ev (name pk)) (data pk) in
  if String.eqb (held (name pk)) (target_value ev) then pk' else usePokemon_effect pk'.

Definition usePokemon_step (pk : pokemon) (e : poke_event) : pokemon :=
  match e with
  | Typed ev => usePokemon_onNameChange ev pk
  | Answered rid r => Pokemon (name pk) (settle rid r (data pk))
  end.

Definition usePokemon_run (initialName doc : string) (evs : list poke_event) : pokemon :=
  foldl usePokemon_step (usePokemon initialName doc) evs.

(** usePokemon.js, line 15: [{ ...data, name, onNameChange }]. *)
Definition usePokemon_result (pk : pokemon) : obj :=
  <["onNameChange" := VFunction "onNameChange"]>
    (<["name" := VString (held (name pk))]> (state (data pk))).

(** The successive values a field takes when [vs] are assigned to it in
    turn, starting from [current]: an assignment of the value already held
    is no change. *)
Fixpoint changes (current : string) (vs : list string) : list string :=
  match vs with
  | [] => []
  | v :: vs' =>
      if String.eqb current v then changes current vs' else v :: changes v vs'
  end.

(** The change events among the events of a pokemon lookup, and the values
    they carry, in order. *)
Definition typed (evs : list poke_event) : list change_event :=
  omap (fun e => match e with
                 | Typed ev => Some ev
                 | Answered _ _ => None
                 end) evs.

Definition typed_values (evs : list poke_event) : list string :=
  target_value <$> typed evs.

(** What reaches the fetcher of a pokemon lookup whose name is [current]:
    a call for every change of the name, and the answers of the network. *)
Fixpoint poke_fetch_events (current : string) (evs : list poke_event) : list event :=
  match evs with
  | [] => []
  | Typed ev :: evs' =>
      if String.eqb current (target_value ev) then poke_fetch_events current evs'
      else Call (target_value ev) :: poke_fetch_events (target_value ev) evs'
  | Answered rid r :: evs' => Settle rid r :: poke_fetch_events current evs'
  end.

(** ** Sequences of fetches and what they leave *)

(** [fetch(p)] awaited: the call followed by the answer to its request. *)
Definition fetch_and_wait (body : string -> prog unit) (w : world)
    (pa : string * settled response) : world :=
  settle (length (requests w)) (snd pa) (call (body (fst pa)) w).

(** The decoded bodies carried by the answers of a sequence of events. *)
Definition answered_payloads (evs : list event) : list value :=
  omap (fun ev => match ev with
                  | Settle _ r =>
                      match promise_then r json with
                      | Fulfilled d => Some d
                      | Rejected _ => None
                      end
                  | Call _ => None
                  end) evs.

(** The values thrown by the failing answers of a sequence of events. *)
Definition answered_failures (evs : list event) : list value :=
  omap (fun ev => match ev with
                  | Settle _ r =>
                      match promise_then r json with
                      | Fulfilled _ => None
                      | Rejected e => Some e
                      end
                  | Call _ => None
                  end) evs.

(** The payload of the last answer that decoded, [d0] if there is none. *)
Definition last_payload (d0 : value) (answers : list (settled response)) : value :=
  foldl (fun d r => match promise_then r json with
                    | Fulfilled d' => d'
                    | Rejected _ => d
                    end) d0 answers.

(** The state written by the completion of a call of the version of
    [useFetch] with plain [setState] calls: the snapshot [captured] with the
    result of the call, then [loading] false. *)
Definition closure_finish (captured : obj) (r : settled response) : obj :=
  <["loading" := VBool false]>
    match promise_then r json with
    | Fulfilled d => <["error" := VUndefined]> (<["data" := d]> captured)
    | Rejected e => <["error" := e]> captured
    end.

(** ** Calls, requests and promises *)

(** Call number [i] waits for request number [i], and its promise is
    pending while that request is in flight and resolved once it is not. *)
Definition tidy (w : world) : Prop :=
  length (promises w) = length (requests w) /\
  (forall rid cid k, suspended w !! rid = Some (cid, k) -> cid = rid) /\
  (forall i, i < length (promises w) ->
     promises w !! i =
     Some (match suspended w !! i with
           | Some _ => Pending
           | None => Resolved VUndefined
           end)).

(** * Properties *)

(** The scenario of fetchStore.test.js. *)
Example test_scenario :
  let w1 := run_store TEST_URL [Call "resource"] in
  let w2 := run_store TEST_URL [Call "resource"; Settle 0 (ok (VString "Some data"))] in
  obj_get (state (run_store TEST_URL [])) "loading" = VUndefined /\
  obj_get (state (run_store TEST_URL [])) "data" = VUndefined /\
  obj_get (state w1) "loading" = VBool true /\
  requests w1 = ["https://test.com/resource"] /\
  obj_get (state w2) "loading" = VBool false /\
  obj_get (state w2) "data" = VString "Some data" /\
  promises w2 = [Resolved VUndefined].
Proof. vm_compute. repeat split. Qed.

(** ** Both fetchers start and complete in the same way *)

Lemma fetchStore_fetcher b : fetcher b (fetchStore_fetch b).
Proof.
  intros p. eexists. split; cycle 1.
  - intros w. unfold call, fetch_start. cbn. reflexivity.
  - intros [[[d|e]]|e] cid w; reflexivity.
Qed.

Lemma useFetch_fetcher b : fetcher b (useFetch_fetch b).
Proof.
  intros p. eexists. split; cycle 1.
  - intros w. unfold call, fetch_start. cbn. reflexivity.
  - intros [[[d|e]]|e] cid w; reflexivity.
Qed.

(** ** Facts shared by both fetchers *)

Lemma wf_fresh init : wf (fresh init).
Proof.
  split.
  - intros rid cid k H. cbn in H. by rewrite lookup_empty in H.
  - intros c e H. cbn in H. by rewrite lookup_nil in H.
Qed.

Lemma settle_in_flight rid r w cid k :
  suspended w !! rid = Some (cid, k) -> completes k ->
  settle rid r w =
  World (fetch_finish r (state w)) (requests w) (delete rid (suspended w))
        (<[cid := Resolved VUndefined]> (promises w)).
Proof. intros H Hk. unfold settle. rewrite H. by rewrite Hk. Qed.

Lemma settle_not_in_flight rid r w :
  suspended w !! rid = None -> settle rid r w = w.
Proof. intros H. unfold settle. by rewrite H. Qed.

Lemma wf_fetch_start b p k w : completes k -> wf w -> wf (fetch_start b p k w).
Proof.
  intros Hk [Hs Hp]. split; cbn.
  - intros rid cid k' H. rewrite !length_app. cbn.
    apply lookup_insert_Some in H as [[<- [= <- <-]]|[_ H]].
    + split; [done|lia].
    + destruct (Hs _ _ _ H) as (? & ? & ?). split; [done|lia].
  - intros c e H. apply lookup_app_Some in H as [H|[_ H]].
    + by apply Hp in H.
    + by destruct (c - length (promises w)) as [|[|?]].
Qed.

Lemma wf_settle rid r w : wf w -> wf (settle rid r w).
Proof.
  intros [Hs Hp]. destruct (suspended w !! rid) as [[cid k]|] eqn:E.
  2: { rewrite settle_not_in_flight by done. by split. }
  destruct (Hs _ _ _ E) as (Hk & _ & _).
  rewrite (settle_in_flight _ _ _ _ _ E Hk). split; cbn.
  - intros rid' cid' k' H. rewrite length_insert.
    apply lookup_delete_Some in H as [_ H]. eauto.
  - intros c e H. apply list_lookup_insert_Some in H as [(_ & ? & _)|[_ H]].
    + done.
    + by apply Hp in H.
Qed.

Section FetcherFacts.

Variable b : string.
Variable body : string -> prog unit.
Hypothesis Hbody : fetcher b body.

Lemma wf_step w ev : wf w -> wf (step body w ev).
Proof.
  intros Hw. destruct ev as [p|rid r]; cbn.
  - destruct (Hbody p) as (k & Hk & ->). by apply wf_fetch_start.
  - by apply wf_settle.
Qed.

Lemma wf_run w evs : wf w -> wf (run body w evs).
Proof.
  revert w. induction evs as [|ev evs IH]; intros w Hw; [done|].
  cbn. apply IH. by apply wf_step.
Qed.

(** A call followed at once by the answer to its request. *)
Lemma settle_call p r w :
  let w' := settle (length (requests w)) r (call (body p) w) in
  state w' = fetch_finish r (<["loading" := VBool true]> (state w)) /\
  requests w' = requests w ++ [b +:+ p] /\
  suspended w' = delete (length (requests w)) (suspended w) /\
  promises w' = promises w ++ [Resolved VUndefined].
Proof.
  destruct (Hbody p) as (k & Hk & ->). cbn.
  erewrite settle_in_flight; [|apply lookup_insert_eq|done]. cbn.
  repeat split.
  - apply delete_insert_eq.
  - rewrite insert_app_r_alt by done. by rewrite Nat.sub_diag.
Qed.

End FetcherFacts.

(** ** Reading the state after the writes of [fetch] *)

Lemma obj_get_insert_eq (o : obj) k v : obj_get (<[k := v]> o) k = v.
Proof. unfold obj_get. by rewrite lookup_insert_eq. Qed.

Lemma obj_get_insert_ne (o : obj) k k' v :
  k <> k' -> obj_get (<[k := v]> o) k' = obj_get o k'.
Proof. intros H. unfold obj_get. by rewrite lookup_insert_ne. Qed.

Lemma fetch_finish_loading r st : obj_get (fetch_finish r st) "loading" = VBool false.
Proof. unfold fetch_finish. destruct (promise_then r json); apply obj_get_insert_eq. Qed.

Lemma fetch_finish_fulfilled r d st :
  promise_then r json = Fulfilled d ->
  obj_get (fetch_finish r st) "data" = d /\
  obj_get (fetch_finish r st) "error" = VUndefined.
Proof.
  intros H. unfold fetch_finish. rewrite H. split.
  - rewrite !obj_get_insert_ne by done. apply obj_get_insert_eq.
  - rewrite obj_get_insert_ne by done. apply obj_get_insert_eq.
Qed.

Lemma fetch_finish_rejected r e st :
  promise_then r json = Rejected e ->
  obj_get (fetch_finish r st) "error" = e /\
  fetch_finish r st !! "data" = st !! "data".
Proof.
  intros H. unfold fetch_finish. rewrite H. split.
  - rewrite obj_get_insert_ne by done. apply obj_get_insert_eq.
  - by rewrite !lookup_insert_ne.
Qed.

(** The completion of a call in any well-formed world, whatever other
    calls are outstanding and whatever completed since the call was made. *)
Lemma settle_success_any w rid r d :
  wf w -> in_flight w rid -> promise_then r json = Fulfilled d ->
  obj_get (state (settle rid r w)) "data" = d /\
  obj_get (state (settle rid r w)) "error" = VUndefined /\
  obj_get (state (settle rid r w)) "loading" = VBool false.
Proof.
  intros [Hs _] [[cid k] E] H. destruct (Hs _ _ _ E) as (Hk & _).
  rewrite (settle_in_flight _ _ _ _ _ E Hk). cbn.
  destruct (fetch_finish_fulfilled r d (state w) H).
  split_and!; [done..|apply fetch_finish_loading].
Qed.

Lemma settle_failure_any w rid r e :
  wf w -> in_flight w rid -> promise_then r json = Rejected e ->
  obj_get (state (settle rid r w)) "error" = e /\
  obj_get (state (settle rid r w)) "loading" = VBool false /\
  state (settle rid r w) !! "data" = state w !! "data".
Proof.
  intros [Hs _] [[cid k] E] H. destruct (Hs _ _ _ E) as (Hk & _).
  rewrite (settle_in_flight _ _ _ _ _ E Hk). cbn.
  destruct (fetch_finish_rejected r e (state w) H).
  split_and!; [done|apply fetch_finish_loading|done].
Qed.

Section FetcherLifecycle.

Variable b : string.
Variable body : string -> prog unit.
Hypothesis Hbody : fetcher b body.

Lemma lifecycle_promise p r w :
  promises (settle (length (requests w)) r (call (body p) w)) !! length (promises w)
  = Some (Resolved VUndefined).
Proof.
  destruct (settle_call b body Hbody p r w) as (_ & _ & _ & ->).
  rewrite lookup_app_r by done. by rewrite Nat.sub_diag.
Qed.

Lemma lifecycle_success p r d w :
  promise_then r json = Fulfilled d ->
  let w' := settle (length (requests w)) r (call (body p) w) in
  obj_get (state w') "data" = d /\
  obj_get (state w') "error" = VUndefined /\
  obj_get (state w') "loading" = VBool false.
Proof.
  intros H. destruct (settle_call b body Hbody p r w) as (Hst & _). cbn.
  rewrite Hst. destruct (fetch_finish_fulfilled r d (<["loading":=VBool true]> (state w)) H).
  repeat split; [done..|apply fetch_finish_loading].
Qed.

Lemma lifecycle_failure p r e w :
  promise_then r json = Rejected e ->
  let w' := settle (length (requests w)) r (call (body p) w) in
  obj_get (state w') "error" = e /\
  obj_get (state w') "loading" = VBool false /\
  state w' !! "data" = state w !! "data".
Proof.
  intros H. destruct (settle_call b body Hbody p r w) as (Hst & _). cbn.
  rewrite Hst. destruct (fetch_finish_rejected r e (<["loading":=VBool true]> (state w)) H) as [? Hd].
  repeat split; [done|apply fetch_finish_loading|].
  rewrite Hd. by rewrite lookup_insert_ne.
Qed.

Lemma call_pending p w :
  let w1 := call (body p) w in
  obj_get (state w1) "loading" = VBool true /\
  in_flight w1 (length (requests w)) /\
  promises w1 !! length (promises w) = Some Pending /\
  requests w1 = requests w ++ [b +:+ p] /\
  delete "loading" (state w1) = delete "loading" (state w).
Proof.
  destruct (Hbody p) as (k & Hk & ->). cbn. repeat split.
  - apply obj_get_insert_eq.
  - unfold in_flight. cbn. rewrite lookup_insert_eq. eauto.
  - rewrite lookup_app_r by done. by rewrite Nat.sub_diag.
  - apply delete_insert_eq.
Qed.

Lemma run_requests w evs :
  wf w ->
  requests (run body w evs) = requests w ++ ((fun p => b +:+ p) <$> called_paths evs).
Proof.
  revert w. induction evs as [|ev evs IH]; intros w Hw.
  - cbn. by rewrite app_nil_r.
  - change (run body w (ev :: evs)) with (run body (step body w ev) evs).
    rewrite IH by (by apply wf_step with (b := b)).
    cbn [called_paths omap list_omap].
    destruct ev as [p|rid r]; cbn [step fmap list_fmap].
    + destruct (Hbody p) as (k & Hk & ->). cbn. by rewrite <- app_assoc.
    + destruct (suspended w !! rid) as [[cid k]|] eqn:E.
      * destruct Hw as [Hs _]. destruct (Hs _ _ _ E) as (Hk & _).
        by rewrite (settle_in_flight _ _ _ _ _ E Hk).
      * by rewrite settle_not_in_flight.
Qed.

Lemma run_never_rejected init evs c e :
  promises (run body (fresh init) evs) !! c <> Some (RejectedWith e).
Proof.
  destruct (wf_run b body Hbody (fresh init) evs (wf_fresh init)) as [_ H]. apply H.
Qed.

End FetcherLifecycle.

(** ** The fetch lifecycle *)

(** C1. For every base address and path, from every prior state: when the
    response of [fetch(path)] arrives and its body decodes to [d], the
    promise of the call resolves and the state then has [data] equal to [d],
    [error] undefined (whatever it held before) and [loading] false. *)
Theorem fetch_success_state b p w r d :
  promise_then r json = Fulfilled d ->
  let w' := settle (length (requests w)) r (call (fetchStore_fetch b p) w) in
  promises w' !! length (promises w) = Some (Resolved VUndefined) /\
  obj_get (state w') "data" = d /\
  obj_get (state w') "error" = VUndefined /\
  obj_get (state w') "loading" = VBool false.
Proof.
  intros H. split.
  - apply (lifecycle_promise b _ (fetchStore_fetcher b)).
  - by apply (lifecycle_success b _ (fetchStore_fetcher b)).
Qed.

Lemma fetch_success_state_witness :
  obj_get (state after_failed_fetch) "error" = VError "Failed to fetch" /\
  let w' := settle (length (requests after_failed_fetch)) (ok (VString "Some data"))
                   (call (fetchStore_fetch TEST_URL "resource") after_failed_fetch) in
  promises w' !! length (promises after_failed_fetch) = Some (Resolved VUndefined) /\
  obj_get (state w') "data" = VString "Some data" /\
  obj_get (state w') "error" = VUndefined /\
  obj_get (state w') "loading" = VBool false.
Proof.
  split; [reflexivity|].
  apply (fetch_success_state TEST_URL "resource" after_failed_fetch
           (ok (VString "Some data")) (VString "Some data")).
  reflexivity.
Defined.

(** C2. For every prior state and path, in the store and in the hook: when
    the request of [fetch(path)] fails, by a rejected network call or by a
    body that does not decode, the promise of the call still resolves,
    [error] is the thrown value, [loading] is false and the [data] property
    is exactly what it was before the call. *)
Theorem fetch_failure_state b p w r e :
  promise_then r json = Rejected e ->
  let ws := settle (length (requests w)) r (call (fetchStore_fetch b p) w) in
  let wh := settle (length (requests w)) r (call (useFetch_fetch b p) w) in
  (obj_get (state ws) "error" = e /\
   obj_get (state ws) "loading" = VBool false /\
   state ws !! "data" = state w !! "data") /\
  (obj_get (state wh) "error" = e /\
   obj_get (state wh) "loading" = VBool false /\
   state wh !! "data" = state w !! "data").
Proof.
  intros H. split.
  - by apply (lifecycle_failure b _ (fetchStore_fetcher b)).
  - by apply (lifecycle_failure b _ (useFetch_fetcher b)).
Qed.

Lemma fetch_failure_state_witness :
  state after_successful_fetch !! "data" = Some (VString "Some data") /\
  let r := Fulfilled (Response (Rejected (VError "Unexpected token"))) in
  let w := after_successful_fetch in
  let ws := settle (length (requests w)) r (call (fetchStore_fetch TEST_URL "broken") w) in
  let wh := settle (length (requests w)) r (call (useFetch_fetch TEST_URL "broken") w) in
  (obj_get (state ws) "error" = VError "Unexpected token" /\
   obj_get (state ws) "loading" = VBool false /\
   state ws !! "data" = state w !! "data") /\
  (obj_get (state wh) "error" = VError "Unexpected token" /\
   obj_get (state wh) "loading" = VBool false /\
   state wh !! "data" = state w !! "data").
Proof.
  split; [reflexivity|].
  apply (fetch_failure_state TEST_URL "broken" after_successful_fetch
           (Fulfilled (Response (Rejected (VError "Unexpected token"))))
           (VError "Unexpected token")).
  reflexivity.
Defined.

(** C3. For every base address [b] and path [p]: the call [fetch(p)] hands
    exactly one URL to the network, [b + p], and its completion hands none;
    so over any sequence of calls and completions the URLs requested are
    exactly [b + p] for each call made, in the order of the calls. *)
Theorem fetch_requests_base_plus_path b p w r evs :
  requests (call (fetchStore_fetch b p) w) = requests w ++ [b +:+ p] /\
  requests (settle (length (requests w)) r (call (fetchStore_fetch b p) w))
  = requests w ++ [b +:+ p] /\
  requests (run_store b evs) = (fun q => b +:+ q) <$> called_paths evs.
Proof.
  split; [|split].
  - apply (call_pending b _ (fetchStore_fetcher b)).
  - apply (settle_call b _ (fetchStore_fetcher b)).
  - apply (run_requests b _ (fetchStore_fetcher b) (fresh fetchStore_init)), wf_fresh.
Qed.

(** C5. For every path and every answer of the network (a decoded body, a
    rejected network call, a body that fails to decode), in the store and in
    the hook: the promise returned by [fetch] resolves, with [undefined], and
    a failure is found in the [error] property; over any sequence of calls
    and completions no promise of a call is ever rejected. *)
Theorem fetch_never_rejects b p w r evs c e :
  let ws := settle (length (requests w)) r (call (fetchStore_fetch b p) w) in
  let wh := settle (length (requests w)) r (call (useFetch_fetch b p) w) in
  promises ws !! length (promises w) = Some (Resolved VUndefined) /\
  promises wh !! length (promises w) = Some (Resolved VUndefined) /\
  match promise_then r json with
  | Rejected e' => obj_get (state ws) "error" = e' /\ obj_get (state wh) "error" = e'
  | Fulfilled _ => True
  end /\
  promises (run_store b evs) !! c <> Some (RejectedWith e) /\
  promises (run_hook b evs) !! c <> Some (RejectedWith e).
Proof.
  repeat split.
  - apply (lifecycle_promise b _ (fetchStore_fetcher b)).
  - apply (lifecycle_promise b _ (useFetch_fetcher b)).
  - destruct (promise_then r json) as [d|e'] eqn:E; [done|]. split.
    + by apply (lifecycle_failure b _ (fetchStore_fetcher b)).
    + by apply (lifecycle_failure b _ (useFetch_fetcher b)).
  - apply (run_never_rejected b _ (fetchStore_fetcher b)).
  - apply (run_never_rejected b _ (useFetch_fetcher b)).
Qed.

(** C6. For every base address, the resource of a freshly constructed
    fetcher (store or hook) has no [loading], [data] or [error] property:
    each reads as [undefined], [loading] is falsy, no request has been
    issued and no call is outstanding. *)
Theorem fresh_fetcher_state b :
  let ws := run_store b [] in
  let wh := run_hook b [] in
  (state ws !! "loading" = None /\ state ws !! "data" = None /\
   state ws !! "error" = None) /\
  (state wh !! "loading" = None /\ state wh !! "data" = None /\
   state wh !! "error" = None) /\
  (obj_get (state ws) "loading" = VUndefined /\
   obj_get (state ws) "data" = VUndefined /\
   obj_get (state ws) "error" = VUndefined /\
   is_truthy (obj_get (state ws) "loading") = false) /\
  requests ws = [] /\ suspended ws = ∅ /\ promises ws = [].
Proof. repeat split. Qed.

(** C8. For every prior state and path, in the store and in the hook: right
    after [fetch(path)] is called, while its request is in flight and its
    promise pending, [loading] is true and every other property of the
    state, [data] and [error] among them, is exactly as before the call. *)
Theorem fetch_start_changes_only_loading b p w :
  let ws := call (fetchStore_fetch b p) w in
  let wh := call (useFetch_fetch b p) w in
  (in_flight ws (length (requests w)) /\
   promises ws !! length (promises w) = Some Pending /\
   obj_get (state ws) "loading" = VBool true /\
   state ws !! "data" = state w !! "data" /\
   state ws !! "error" = state w !! "error" /\
   delete "loading" (state ws) = delete "loading" (state w)) /\
  (in_flight wh (length (requests w)) /\
   promises wh !! length (promises w) = Some Pending /\
   obj_get (state wh) "loading" = VBool true /\
   state wh !! "data" = state w !! "data" /\
   state wh !! "error" = state w !! "error" /\
   delete "loading" (state wh) = delete "loading" (state w)).
Proof.
  assert (forall body, fetcher b body ->
    let w1 := call (body p) w in
    in_flight w1 (length (requests w)) /\
    promises w1 !! length (promises w) = Some Pending /\
    obj_get (state w1) "loading" = VBool true /\
    state w1 !! "data" = state w !! "data" /\
    state w1 !! "error" = state w !! "error" /\
    delete "loading" (state w1) = delete "loading" (state w)) as Hgen.
  { intros body Hb.
    destruct (call_pending b body Hb p w) as (Hl & Hi & Hp & _ & Hd).
    assert (forall k, k <> "loading" ->
              state (call (body p) w) !! k = state w !! k) as Hk.
    { intros k Hne.
      rewrite <- (lookup_delete_ne (state (call (body p) w)) "loading" k) by done.
      rewrite Hd. by rewrite lookup_delete_ne. }
    cbn. repeat split; [done..| by apply Hk | by apply Hk | done]. }
  split.
  - apply (Hgen _ (fetchStore_fetcher b)).
  - apply (Hgen _ (useFetch_fetcher b)).
Qed.

(** ** The loading flag over time *)

Lemma no_overlap_prefix body w pre suf :
  no_overlap body w (pre ++ suf) -> no_overlap body w pre.
Proof.
  revert w. induction pre as [|[p|rid r] pre IH]; intros w H; [done|..].
  - destruct H as [H1 H2]. split; [done|]. by apply IH.
  - cbn in *. by apply IH.
Qed.

Lemma run_snoc body w evs ev :
  run body w (evs ++ [ev]) = step body (run body w evs) ev.
Proof. unfold run. by rewrite foldl_app. Qed.

Section Sequential.

Variable b : string.
Variable body : string -> prog unit.
Hypothesis Hbody : fetcher b body.

Lemma loading_tracks_step w ev :
  wf w -> loading_tracks w -> no_overlap body w [ev] ->
  loading_tracks (step body w ev).
Proof.
  intros Hw Hl Hno. destruct ev as [p|rid r]; cbn [step].
  - destruct Hno as [Hempty _].
    destruct (Hbody p) as (k & Hk & ->). right.
    exists (length (requests w)), (length (promises w), k). cbn. split.
    + by rewrite Hempty.
    + apply obj_get_insert_eq.
  - destruct (suspended w !! rid) as [[cid k]|] eqn:E.
    2: { by rewrite settle_not_in_flight. }
    destruct Hw as [Hs _]. destruct (Hs _ _ _ E) as (Hk & _ & Hc).
    rewrite (settle_in_flight _ _ _ _ _ E Hk). left.
    destruct Hl as [[Hempty _]|(rid' & ck & Hone & _)].
    { rewrite Hempty in E. by rewrite lookup_empty in E. }
    unfold idle_loading. cbn. split.
    + rewrite Hone in E |- *.
      apply lookup_singleton_Some in E as [<- _]. apply delete_singleton_eq.
    + rewrite fetch_finish_loading.
      destruct (promises w) as [|q qs]; [cbn in Hc; lia|]. by destruct cid.
Qed.

Lemma loading_tracks_run w evs :
  wf w -> loading_tracks w -> no_overlap body w evs ->
  loading_tracks (run body w evs).
Proof.
  revert w. induction evs as [|ev evs IH]; intros w Hw Hl Hno; [done|].
  change (run body w (ev :: evs)) with (run body (step body w ev) evs).
  apply IH.
  - by apply wf_step with (b := b).
  - apply loading_tracks_step; [done..|]. by destruct ev; cbn in *; intuition.
  - by destruct ev; cbn in *; intuition.
Qed.

Lemma call_sets_loading p w :
  obj_get (state (call (body p) w)) "loading" = VBool true.
Proof. apply (call_pending b body Hbody). Qed.

Lemma settle_clears_loading rid r w :
  wf w -> in_flight w rid ->
  obj_get (state (settle rid r w)) "loading" = VBool false.
Proof.
  intros [Hs _] [[cid k] E]. destruct (Hs _ _ _ E) as (Hk & _).
  rewrite (settle_in_flight _ _ _ _ _ E Hk). apply fetch_finish_loading.
Qed.

End Sequential.

Lemma in_flight_lookup w rid :
  match suspended w !! rid with Some _ => true | None => false end = true ->
  in_flight w rid.
Proof. unfold in_flight. destruct (suspended w !! rid); [eauto|discriminate]. Qed.

Lemma loading_tracks_fresh init :
  init !! "loading" = None -> loading_tracks (fresh init).
Proof. intros H. left. split; [done|]. unfold obj_get. cbn. by rewrite H. Qed.

(** C4, as stated, fails: with two overlapping calls, once the first one
    completes [loading] is false while the request of the second one is
    still in flight (and [loading] was true, not false, right before the
    second call). *)
Lemma loading_false_while_request_in_flight :
  let before_second := run_store TEST_URL [Call "a"] in
  let w := run_store TEST_URL [Call "a"; Call "b"; Settle 0 (ok (VString "A"))] in
  obj_get (state before_second) "loading" = VBool true /\
  in_flight w 1 /\
  requests w = ["https://test.com/a"; "https://test.com/b"] /\
  promises w !! 1 = Some Pending /\
  obj_get (state w) "loading" = VBool false /\
  ~ (forall evs rid, in_flight (run_store TEST_URL evs) rid ->
       obj_get (state (run_store TEST_URL evs)) "loading" = VBool true).
Proof.
  assert (in_flight
            (run_store TEST_URL [Call "a"; Call "b"; Settle 0 (ok (VString "A"))]) 1)
    as Hin by (apply in_flight_lookup; vm_compute; reflexivity).
  repeat split; [done|].
  intros H. specialize (H _ _ Hin). vm_compute in H. discriminate H.
Qed.

(** C4, amended. Over every sequence of calls and completions in which no
    call is made while another is outstanding, at every point of it:
    [loading] is true exactly while a request is in flight, is unset before
    the first call and false whenever an earlier call has completed and none
    is in flight; in particular it is not true right before each call, true
    right after it, and false right after each completion, whatever the
    answer was. *)
Theorem loading_tracks_sequential_fetch b evs :
  no_overlap (fetchStore_fetch b) (fresh fetchStore_init) evs ->
  (forall pre suf, evs = pre ++ suf ->
     let w := run_store b pre in
     (suspended w <> ∅ -> obj_get (state w) "loading" = VBool true) /\
     (suspended w = ∅ -> obj_get (state w) "loading" = idle_loading w)) /\
  (forall pre p suf, evs = pre ++ Call p :: suf ->
     obj_get (state (run_store b pre)) "loading" = idle_loading (run_store b pre) /\
     obj_get (state (run_store b (pre ++ [Call p]))) "loading" = VBool true) /\
  (forall pre rid r suf, evs = pre ++ Settle rid r :: suf ->
     in_flight (run_store b pre) rid ->
     suspended (run_store b (pre ++ [Settle rid r])) = ∅ /\
     obj_get (state (run_store b (pre ++ [Settle rid r]))) "loading" = VBool false).
Proof.
  intros Hno.
  assert (forall pre suf, evs = pre ++ suf -> loading_tracks (run_store b pre)) as Hinv.
  { intros pre suf ->. apply (loading_tracks_run b _ (fetchStore_fetcher b)).
    - apply wf_fresh.
    - by apply loading_tracks_fresh.
    - by apply no_overlap_prefix in Hno. }
  assert (forall w, loading_tracks w ->
            (suspended w <> ∅ -> obj_get (state w) "loading" = VBool true) /\
            (suspended w = ∅ -> obj_get (state w) "loading" = idle_loading w)) as Hread.
  { intros w [[He Hl]|(rid & ck & Hone & Hl)]; split; intros H; try done.
    rewrite Hone in H. destruct (map_non_empty_singleton _ _ H). }
  split; [|split].
  - intros pre suf E. apply Hread. by apply (Hinv pre suf).
  - intros pre p suf E. split.
    + assert (no_overlap (fetchStore_fetch b) (run_store b pre) [Call p]) as [He _].
      { clear Hinv. subst evs. revert Hno. unfold run_store.
        generalize (fresh fetchStore_init).
        induction pre as [|[q|rid r] pre IH]; intros w H; cbn in *.
        - split; [|done]. apply H.
        - apply IH, H.
        - by apply IH. }
      by apply (Hread _ (Hinv pre (Call p :: suf) E)).
    + unfold run_store. rewrite run_snoc.
      apply (call_sets_loading b _ (fetchStore_fetcher b)).
  - intros pre rid r suf E Hin.
    assert (loading_tracks (run_store b (pre ++ [Settle rid r]))) as Hl.
    { apply (Hinv _ suf). by rewrite <- app_assoc. }
    assert (obj_get (state (run_store b (pre ++ [Settle rid r]))) "loading" = VBool false) as Hf.
    { unfold run_store. rewrite run_snoc.
      apply settle_clears_loading; [|done].
      apply (wf_run b _ (fetchStore_fetcher b)), wf_fresh. }
    split; [|done].
    destruct Hl as [[He _]|(? & ? & _ & Ht)]; [done|]. rewrite Hf in Ht. discriminate Ht.
Qed.

Lemma loading_tracks_sequential_fetch_witness :
  let evs := [Call "resource"; Settle 0 (ok (VString "Some data"));
              Call "missing"; Settle 1 (Rejected (VError "Failed to fetch"))] in
  no_overlap (fetchStore_fetch TEST_URL) (fresh fetchStore_init) evs /\
  obj_get (state (run_store TEST_URL [Call "resource"])) "loading" = VBool true /\
  obj_get (state (run_store TEST_URL evs)) "loading" = VBool false.
Proof.
  assert (no_overlap (fetchStore_fetch TEST_URL) (fresh fetchStore_init)
            [Call "resource"; Settle 0 (ok (VString "Some data"));
             Call "missing"; Settle 1 (Rejected (VError "Failed to fetch"))]) as Hno.
  { repeat split; vm_compute; reflexivity. }
  split; [exact Hno|].
  destruct (loading_tracks_sequential_fetch TEST_URL _ Hno) as (_ & Hcall & Hsettle).
  split.
  - apply (Hcall [] "resource" _ eq_refl).
  - apply (Hsettle [Call "resource"; Settle 0 (ok (VString "Some data")); Call "missing"]
             1 (Rejected (VError "Failed to fetch")) [] eq_refl).
    apply in_flight_lookup. vm_compute. reflexivity.
Defined.

(** ** Overlapping calls *)

Lemma fetch_finish_prevails r st before after :
  state before = st -> state after = fetch_finish r st ->
  completion_prevails before after r.
Proof.
  intros <- Ha. unfold completion_prevails. rewrite Ha. split.
  - apply fetch_finish_loading.
  - destruct (promise_then r json) as [d|e] eqn:E.
    + by apply fetch_finish_fulfilled.
    + by apply fetch_finish_rejected.
Qed.

Lemma settle_two w ridA cA kA rA ridB cB kB rB :
  ridA <> ridB ->
  suspended w !! ridA = Some (cA, kA) -> completes kA ->
  suspended w !! ridB = Some (cB, kB) -> completes kB ->
  settle ridB rB (settle ridA rA w) =
  World (fetch_finish rB (fetch_finish rA (state w))) (requests w)
        (delete ridB (delete ridA (suspended w)))
        (<[cB := Resolved VUndefined]> (<[cA := Resolved VUndefined]> (promises w))).
Proof.
  intros Hne HA HkA HB HkB.
  rewrite (settle_in_flight _ _ _ _ _ HA HkA).
  erewrite settle_in_flight; [done| |done].
  cbn. by rewrite lookup_delete_ne.
Qed.

Section Overlap.

Variable b : string.
Variable body : string -> prog unit.
Hypothesis Hbody : fetcher b body.

Lemma two_calls p1 p2 w :
  exists k1 k2, completes k1 /\ completes k2 /\
  call (body p1) w = fetch_start b p1 k1 w /\
  call (body p2) (call (body p1) w) = fetch_start b p2 k2 (fetch_start b p1 k1 w).
Proof.
  destruct (Hbody p1) as (k1 & Hk1 & E1). destruct (Hbody p2) as (k2 & Hk2 & E2).
  exists k1, k2. repeat split; [done..|]. by rewrite E1, E2.
Qed.

Lemma overlap_started p1 p2 w :
  let w1 := call (body p1) w in
  let w2 := call (body p2) w1 in
  requests w2 = requests w ++ [b +:+ p1; b +:+ p2] /\
  length (requests w) <> length (requests w1) /\
  in_flight w2 (length (requests w)) /\
  in_flight w2 (length (requests w1)) /\
  promises w2 !! length (promises w) = Some Pending /\
  promises w2 !! length (promises w1) = Some Pending.
Proof.
  destruct (two_calls p1 p2 w) as (k1 & k2 & Hk1 & Hk2 & E1 & E2).
  cbn. rewrite E2, E1. unfold in_flight. cbn. rewrite !length_app. cbn.
  split_and!.
  - by rewrite <- app_assoc.
  - lia.
  - rewrite lookup_insert_ne by lia. rewrite lookup_insert_eq. eauto.
  - rewrite lookup_insert_eq. eauto.
  - rewrite lookup_app_l by (rewrite length_app; cbn; lia).
    rewrite lookup_app_r by done. by rewrite Nat.sub_diag.
  - rewrite lookup_app_r by (rewrite length_app; cbn; lia).
    rewrite length_app. cbn.
    by replace (length (promises w) + 1 - (length (promises w) + 1)) with 0 by lia.
Qed.

Lemma overlap_first_then_second p1 p2 w r1 r2 :
  let w1 := call (body p1) w in
  let w2 := call (body p2) w1 in
  let wa := settle (length (requests w)) r1 w2 in
  let wb := settle (length (requests w1)) r2 wa in
  state wa = fetch_finish r1 (state w2) /\
  state wb = fetch_finish r2 (fetch_finish r1 (state w2)) /\
  promises wb !! length (promises w) = Some (Resolved VUndefined) /\
  promises wb !! length (promises w1) = Some (Resolved VUndefined).
Proof.
  destruct (two_calls p1 p2 w) as (k1 & k2 & Hk1 & Hk2 & E1 & E2).
  cbn zeta. rewrite E2, E1.
  assert (suspended (fetch_start b p2 k2 (fetch_start b p1 k1 w)) !! length (requests w)
          = Some (length (promises w), k1)) as HA.
  { cbn. rewrite length_app. cbn. rewrite lookup_insert_ne by lia.
    apply lookup_insert_eq. }
  assert (suspended (fetch_start b p2 k2 (fetch_start b p1 k1 w))
            !! length (requests (fetch_start b p1 k1 w))
          = Some (length (promises (fetch_start b p1 k1 w)), k2)) as HB.
  { cbn. apply lookup_insert_eq. }
  assert (length (requests w) <> length (requests (fetch_start b p1 k1 w))) as Hne.
  { cbn. rewrite length_app. cbn. lia. }
  rewrite (settle_two _ _ _ _ r1 _ _ _ r2 Hne HA Hk1 HB Hk2).
  rewrite (settle_in_flight _ _ _ _ _ HA Hk1).
  cbn. rewrite !length_app. cbn. split_and!; [done..| |].
  - rewrite list_lookup_insert_ne by lia.
    apply list_lookup_insert_eq. rewrite !length_app. cbn. lia.
  - apply list_lookup_insert_eq. rewrite length_insert, !length_app. cbn. lia.
Qed.

Lemma overlap_second_then_first p1 p2 w r1 r2 :
  let w1 := call (body p1) w in
  let w2 := call (body p2) w1 in
  let wa := settle (length (requests w1)) r2 w2 in
  let wb := settle (length (requests w)) r1 wa in
  state wa = fetch_finish r2 (state w2) /\
  state wb = fetch_finish r1 (fetch_finish r2 (state w2)) /\
  promises wb !! length (promises w) = Some (Resolved VUndefined) /\
  promises wb !! length (promises w1) = Some (Resolved VUndefined).
Proof.
  destruct (two_calls p1 p2 w) as (k1 & k2 & Hk1 & Hk2 & E1 & E2).
  cbn zeta. rewrite E2, E1.
  assert (suspended (fetch_start b p2 k2 (fetch_start b p1 k1 w)) !! length (requests w)
          = Some (length (promises w), k1)) as HA.
  { cbn. rewrite length_app. cbn. rewrite lookup_insert_ne by lia.
    apply lookup_insert_eq. }
  assert (suspended (fetch_start b p2 k2 (fetch_start b p1 k1 w))
            !! length (requests (fetch_start b p1 k1 w))
          = Some (length (promises (fetch_start b p1 k1 w)), k2)) as HB.
  { cbn. apply lookup_insert_eq. }
  assert (length (requests (fetch_start b p1 k1 w)) <> length (requests w)) as Hne.
  { cbn. rewrite length_app. cbn. lia. }
  rewrite (settle_two _ _ _ _ r2 _ _ _ r1 Hne HB Hk2 HA Hk1).
  rewrite (settle_in_flight _ _ _ _ _ HB Hk2).
  cbn. rewrite !length_app. cbn. split_and!; [done..| |].
  - apply list_lookup_insert_eq. rewrite length_insert, !length_app. cbn. lia.
  - rewrite list_lookup_insert_ne by lia.
    apply list_lookup_insert_eq. rewrite !length_app. cbn. lia.
Qed.

End Overlap.

(** C7. Calling [fetch] while an earlier call is outstanding issues a second
    request and leaves both calls pending with both requests in flight: the
    first is neither failed nor cancelled. The two requests may be answered
    in either order; each completion writes to the shared state and resolves
    its call, so the state after both is the one left by the completion
    that came last, and the two orders can end in different states. *)
Theorem overlapping_fetches_race b p1 p2 w r1 r2 :
  let w1 := call (fetchStore_fetch b p1) w in
  let w2 := call (fetchStore_fetch b p2) w1 in
  let rid1 := length (requests w) in
  let rid2 := length (requests w1) in
  let first_done := settle rid1 r1 w2 in
  let first_then_second := settle rid2 r2 first_done in
  let second_done := settle rid2 r2 w2 in
  let second_then_first := settle rid1 r1 second_done in
  (requests w2 = requests w ++ [b +:+ p1; b +:+ p2] /\
   rid1 <> rid2 /\ in_flight w2 rid1 /\ in_flight w2 rid2 /\
   promises w2 !! length (promises w) = Some Pending /\
   promises w2 !! length (promises w1) = Some Pending) /\
  (completion_prevails first_done first_then_second r2 /\
   promises first_then_second !! length (promises w) = Some (Resolved VUndefined) /\
   promises first_then_second !! length (promises w1) = Some (Resolved VUndefined)) /\
  (completion_prevails second_done second_then_first r1 /\
   promises second_then_first !! length (promises w) = Some (Resolved VUndefined) /\
   promises second_then_first !! length (promises w1) = Some (Resolved VUndefined)) /\
  (exists a1 a2,
     obj_get (state (settle rid2 a2 (settle rid1 a1 w2))) "data" <>
     obj_get (state (settle rid1 a1 (settle rid2 a2 w2))) "data").
Proof.
  pose proof (fetchStore_fetcher b) as Hf.
  cbn zeta.
  destruct (overlap_started b _ Hf p1 p2 w) as (? & ? & ? & ? & ? & ?).
  split_and!; try assumption.
  - destruct (overlap_first_then_second b _ Hf p1 p2 w r1 r2) as (Ha & Hb & _).
    by eapply fetch_finish_prevails.
  - apply (overlap_first_then_second b _ Hf).
  - apply (overlap_first_then_second b _ Hf).
  - destruct (overlap_second_then_first b _ Hf p1 p2 w r1 r2) as (Ha & Hb & _).
    by eapply fetch_finish_prevails.
  - apply (overlap_second_then_first b _ Hf).
  - apply (overlap_second_then_first b _ Hf).
  - exists (ok (VString "first")), (ok (VString "second")).
    destruct (overlap_first_then_second b _ Hf p1 p2 w
                (ok (VString "first")) (ok (VString "second"))) as (_ & -> & _).
    destruct (overlap_second_then_first b _ Hf p1 p2 w
                (ok (VString "first")) (ok (VString "second"))) as (_ & -> & _).
    destruct (fetch_finish_fulfilled (ok (VString "second")) (VString "second")
                (fetch_finish (ok (VString "first"))
                   (state (call (fetchStore_fetch b p2) (call (fetchStore_fetch b p1) w))))
                eq_refl) as [-> _].
    destruct (fetch_finish_fulfilled (ok (VString "first")) (VString "first")
                (fetch_finish (ok (VString "second"))
                   (state (call (fetchStore_fetch b p2) (call (fetchStore_fetch b p1) w))))
                eq_refl) as [-> _].
    discriminate.
Qed.

Example overlapping_fetches_mixed :
  let w := run_store TEST_URL
             [Call "a"; Call "b"; Settle 0 (ok (VString "A"));
              Settle 1 (Rejected (VError "Failed to fetch"))] in
  obj_get (state w) "data" = VString "A" /\
  obj_get (state w) "error" = VError "Failed to fetch" /\
  obj_get (state w) "loading" = VBool false /\
  promises w = [Resolved VUndefined; Resolved VUndefined].
Proof. vm_compute. split_and!; reflexivity. Qed.

(** ** The store and the hook show the same state *)

Lemma fetch_state_start (o : obj) :
  fetch_state (<["loading" := VBool true]> o)
  = (VBool true, obj_get o "data", obj_get o "error").
Proof.
  unfold fetch_state. rewrite obj_get_insert_eq.
  by rewrite !obj_get_insert_ne by done.
Qed.

Lemma fetch_state_finish r (o : obj) :
  fetch_state (fetch_finish r o)
  = match promise_then r json with
    | Fulfilled d => (VBool false, d, VUndefined)
    | Rejected e => (VBool false, obj_get o "data", e)
    end.
Proof.
  unfold fetch_state. rewrite fetch_finish_loading.
  destruct (promise_then r json) as [d|e] eqn:E.
  - by destruct (fetch_finish_fulfilled r d o E) as [-> ->].
  - destruct (fetch_finish_rejected r e o E) as [-> Hd].
    unfold obj_get at 1. by rewrite Hd.
Qed.

Lemma fetch_state_finish_agree r (o1 o2 : obj) :
  obj_get o1 "data" = obj_get o2 "data" ->
  fetch_state (fetch_finish r o1) = fetch_state (fetch_finish r o2).
Proof. intros H. rewrite !fetch_state_finish. by rewrite H. Qed.

Lemma agree_call b body1 body2 p ws wh :
  fetcher b body1 -> fetcher b body2 ->
  agree ws wh -> agree (call (body1 p) ws) (call (body2 p) wh).
Proof.
  intros H1 H2 (Hst & Hr & Hp & Hs).
  destruct (H1 p) as (k1 & Hk1 & ->). destruct (H2 p) as (k2 & Hk2 & ->).
  unfold agree, fetch_start. cbn. rewrite !fetch_state_start, Hr, Hp.
  injection Hst as _ -> ->. split_and!; [done..|].
  intros rid. destruct (decide (length (requests wh) = rid)) as [<-|Hne].
  - by rewrite !lookup_insert_eq.
  - rewrite !lookup_insert_ne by done. apply Hs.
Qed.

Lemma agree_settle rid r ws wh :
  agree ws wh -> agree (settle rid r ws) (settle rid r wh).
Proof.
  intros (Hst & Hr & Hp & Hs). pose proof (Hs rid) as Hrid.
  destruct (suspended ws !! rid) as [[c1 k1]|] eqn:E1;
    destruct (suspended wh !! rid) as [[c2 k2]|] eqn:E2; try done.
  2: { rewrite !settle_not_in_flight by done. by split_and!. }
  destruct Hrid as (<- & Hk1 & Hk2).
  rewrite (settle_in_flight _ _ _ _ _ E1 Hk1), (settle_in_flight _ _ _ _ _ E2 Hk2).
  unfold agree. cbn. rewrite Hr, Hp. split_and!; [|done..|].
  - apply fetch_state_finish_agree. by injection Hst.
  - intros rid'. destruct (decide (rid = rid')) as [<-|Hne].
    + by rewrite !lookup_delete_eq.
    + rewrite !lookup_delete_ne by done. apply Hs.
Qed.

Lemma agree_run b body1 body2 ws wh evs :
  fetcher b body1 -> fetcher b body2 ->
  agree ws wh -> agree (run body1 ws evs) (run body2 wh evs).
Proof.
  intros H1 H2. revert ws wh.
  induction evs as [|[p|rid r] evs IH]; intros ws wh Ha; [done|..].
  - apply IH. by apply (agree_call b).
  - apply IH. by apply agree_settle.
Qed.

(** X15. Over every sequence of calls and completions, overlapping or not,
    the store and the hook show the same {loading, data, error}, have issued
    the same requests and hold the same promises. *)
Lemma store_and_hook_agree_on_traces b evs :
  fetch_state (state (run_store b evs)) = fetch_state (state (run_hook b evs)) /\
  requests (run_store b evs) = requests (run_hook b evs) /\
  promises (run_store b evs) = promises (run_hook b evs).
Proof.
  destruct (agree_run b (fetchStore_fetch b) (useFetch_fetch b)
              (fresh fetchStore_init) (fresh useFetch_init) evs
              (fetchStore_fetcher b) (useFetch_fetcher b)) as (? & ? & ? & _);
    [|done].
  split_and!; [done..|]. intros rid. cbn. by rewrite lookup_empty.
Qed.

(** C9. For the same base address, path and answer of the network, and
    prior states that read the same {loading, data, error}: the store and
    the hook read the same {loading, data, error} while the request is
    pending and again after the call has completed. *)
Theorem store_and_hook_same_transition b p ws wh r :
  fetch_state (state ws) = fetch_state (state wh) ->
  fetch_state (state (call (fetchStore_fetch b p) ws))
  = fetch_state (state (call (useFetch_fetch b p) wh)) /\
  fetch_state (state (settle (length (requests ws)) r (call (fetchStore_fetch b p) ws)))
  = fetch_state (state (settle (length (requests wh)) r (call (useFetch_fetch b p) wh))).
Proof.
  intros H. injection H as Hl Hd He. split.
  - destruct (fetchStore_fetcher b p) as (k1 & _ & ->).
    destruct (useFetch_fetcher b p) as (k2 & _ & ->).
    cbn. rewrite !fetch_state_start. by rewrite Hd, He.
  - destruct (settle_call b _ (fetchStore_fetcher b) p r ws) as (-> & _).
    destruct (settle_call b _ (useFetch_fetcher b) p r wh) as (-> & _).
    apply fetch_state_finish_agree. by rewrite !obj_get_insert_ne by done.
Qed.

Lemma store_and_hook_same_transition_witness :
  let ws := fresh fetchStore_init in
  let wh := fresh useFetch_init in
  let r := ok (VString "Some data") in
  state ws <> state wh /\
  fetch_state (state ws) = fetch_state (state wh) /\
  fetch_state (state (call (fetchStore_fetch TEST_URL "resource") ws))
  = fetch_state (state (call (useFetch_fetch TEST_URL "resource") wh)) /\
  fetch_state (state (settle (length (requests ws)) r
                        (call (fetchStore_fetch TEST_URL "resource") ws)))
  = fetch_state (state (settle (length (requests wh)) r
                          (call (useFetch_fetch TEST_URL "resource") wh))).
Proof.
  split; [|split].
  - intros H. apply (f_equal (fun o : obj => o !! "fetch")) in H. discriminate H.
  - reflexivity.
  - apply (store_and_hook_same_transition TEST_URL "resource"
             (fresh fetchStore_init) (fresh useFetch_init) (ok (VString "Some data"))).
    reflexivity.
Defined.

(** ** The title follows the held value *)

Lemma onChange_synced (ev : change_event) (pg : page) :
  document_title pg = held pg ->
  held (titleStore_onChange ev pg) = target_value ev /\
  document_title (titleStore_onChange ev pg) = target_value ev /\
  held (useTitle_onChange ev pg) = target_value ev /\
  document_title (useTitle_onChange ev pg) = target_value ev.
Proof.
  intros H. unfold titleStore_onChange, useTitle_onChange, store_set_value, setTitle.
  destruct (String.eqb_spec (held pg) (target_value ev)) as [E|E]; cbn.
  - by rewrite H, E.
  - done.
Qed.

Lemma foldl_onChange_synced (evs : list change_event) (pg : page) :
  document_title pg = held pg ->
  let ps := foldl (fun q ev => titleStore_onChange ev q) pg evs in
  let ph := foldl (fun q ev => useTitle_onChange ev q) pg evs in
  (held ps = default (held pg) (last (target_value <$> evs)) /\
   document_title ps = held ps) /\
  (held ph = default (held pg) (last (target_value <$> evs)) /\
   document_title ph = held ph).
Proof.
  revert pg. induction evs as [|ev evs IH] using rev_ind; intros pg H; [done|].
  cbn zeta. rewrite !foldl_app, fmap_app.
  change (target_value <$> [ev]) with [target_value ev]. rewrite last_snoc. cbn.
  destruct (IH pg H) as [[_ Hs] [_ Hh]].
  destruct (onChange_synced ev _ Hs) as (-> & -> & _).
  destruct (onChange_synced ev _ Hh) as (_ & _ & -> & ->). done.
Qed.

(** C10. In the store and in the hook version of the title holder: after a
    change event carrying [v] the held value is [v]; when that changes the
    held value, [v] is assigned to the document title, and otherwise no
    assignment is made; and from construction on, after any sequence of
    change events, the document title equals the held value. *)
Theorem title_follows_held_value (ev : change_event) (pg : page)
    (initalTitle doc : string) (evs : list change_event) :
  let v := target_value ev in
  let written := if String.eqb (held pg) v then [] else [v] in
  (held (titleStore_onChange ev pg) = v /\
   title_writes (titleStore_onChange ev pg) = title_writes pg ++ written /\
   document_title (titleStore_onChange ev pg)
   = default (document_title pg) (last written)) /\
  (held (useTitle_onChange ev pg) = v /\
   title_writes (useTitle_onChange ev pg) = title_writes pg ++ written /\
   document_title (useTitle_onChange ev pg)
   = default (document_title pg) (last written)) /\
  (let ps := foldl (fun q e => titleStore_onChange e q) (titleStore initalTitle doc) evs in
   held ps = last_value initalTitle evs /\ document_title ps = held ps) /\
  (let ph := foldl (fun q e => useTitle_onChange e q) (useTitle initalTitle doc) evs in
   held ph = last_value initalTitle evs /\ document_title ph = held ph).
Proof.
  cbn zeta. split_and!.
  - unfold titleStore_onChange, store_set_value.
    by destruct (String.eqb (held pg) (target_value ev)).
  - unfold titleStore_onChange, store_set_value.
    destruct (String.eqb (held pg) (target_value ev)); cbn; [|done].
    by rewrite app_nil_r.
  - unfold titleStore_onChange, store_set_value.
    by destruct (String.eqb (held pg) (target_value ev)).
  - unfold useTitle_onChange, setTitle.
    by destruct (String.eqb_spec (held pg) (target_value ev)).
  - unfold useTitle_onChange, setTitle.
    destruct (String.eqb (held pg) (target_value ev)); cbn; [|done].
    by rewrite app_nil_r.
  - unfold useTitle_onChange, setTitle.
    by destruct (String.eqb (held pg) (target_value ev)).
  - apply (foldl_onChange_synced evs (titleStore initalTitle doc) eq_refl).
  - apply (foldl_onChange_synced evs (titleStore initalTitle doc) eq_refl).
  - apply (foldl_onChange_synced evs (useTitle initalTitle doc) eq_refl).
  - apply (foldl_onChange_synced evs (useTitle initalTitle doc) eq_refl).
Qed.

Example title_scenario :
  let pg := foldl (fun q e => titleStore_onChange e q) (titleStore "App title" "React App")
              [ChangeEvent "d"; ChangeEvent "di"; ChangeEvent "di"] in
  held pg = "di" /\ document_title pg = "di" /\
  title_writes pg = ["App title"; "d"; "di"].
Proof. vm_compute. split_and!; reflexivity. Qed.

(** ** The version of the hook with plain [setState] calls *)

(** Unlike the store and the final hook, starting a fetch with it replaces
    the whole state: the payload of an earlier fetch is not readable while
    the request is pending. *)
Example useFetch_closure_drops_data :
  let w := run_hook TEST_URL [Call "resource"; Settle 0 (ok (VString "Some data"))] in
  let w1 := call (useFetch_closure_fetch (state w) TEST_URL "other") w in
  obj_get (state w) "data" = VString "Some data" /\
  obj_get (state w1) "loading" = VBool true /\
  obj_get (state w1) "data" = VUndefined /\
  obj_get (state (call (useFetch_fetch TEST_URL "other") w)) "data" = VString "Some data".
Proof. vm_compute. split_and!; reflexivity. Qed.

(** ** What the views show during the life of a fetch *)

Lemma display_fetch_start (o : obj) :
  display (<["loading" := VBool true]> o) = Text "Loading ...".
Proof. unfold display. by rewrite obj_get_insert_eq. Qed.

Lemma display_fetch_finish r (o : obj) :
  display (fetch_finish r o) =
  match promise_then r json with
  | Fulfilled d => Stringified d
  | Rejected e => if is_truthy e then Text "Error!" else Stringified (obj_get o "data")
  end.
Proof.
  unfold display. rewrite fetch_finish_loading. cbn.
  destruct (promise_then r json) as [d|e] eqn:E.
  - by destruct (fetch_finish_fulfilled r d o E) as [-> ->].
  - destruct (fetch_finish_rejected r e o E) as [-> Hd].
    unfold obj_get at 1. by rewrite Hd.
Qed.

Lemma display_fetch_state (o1 o2 : obj) :
  fetch_state o1 = fetch_state o2 -> display o1 = display o2.
Proof. intros [= Hl Hd He]. unfold display. by rewrite Hl, Hd, He. Qed.

Section Display.

Variable b : string.
Variable body : string -> prog unit.
Hypothesis Hbody : fetcher b body.

Lemma display_after_call p w :
  display (state (call (body p) w)) = Text "Loading ...".
Proof. destruct (Hbody p) as (k & _ & ->). apply display_fetch_start. Qed.

Lemma display_after_settle rid r w :
  wf w -> in_flight w rid ->
  display (state (settle rid r w)) =
  match promise_then r json with
  | Fulfilled d => Stringified d
  | Rejected e =>
      if is_truthy e then Text "Error!" else Stringified (obj_get (state w) "data")
  end.
Proof.
  intros [Hs _] [[cid k] E]. destruct (Hs _ _ _ E) as (Hk & _).
  rewrite (settle_in_flight _ _ _ _ _ E Hk). apply display_fetch_finish.
Qed.

End Display.

(** X1. Over every sequence of calls and completions, in the store and in
    the hook: right after a call the view shows "Loading ...", whatever
    error or data the state holds; right after the answer to a request in
    flight it shows the decoded body, or "Error!" for a failure whose thrown
    value is truthy; for a failure whose thrown value is falsy it shows the
    data held before the answer, as after a success. *)
Theorem display_follows_fetch b evs :
  (forall p,
     display (state (run_store b (evs ++ [Call p]))) = Text "Loading ..." /\
     display (state (run_hook b (evs ++ [Call p]))) = Text "Loading ...") /\
  (forall rid r,
     in_flight (run_store b evs) rid ->
     let shown_after (before after : world) :=
       display (state after) =
       match promise_then r json with
       | Fulfilled d => Stringified d
       | Rejected e =>
           if is_truthy e then Text "Error!"
           else Stringified (obj_get (state before) "data")
       end in
     shown_after (run_store b evs) (run_store b (evs ++ [Settle rid r])) /\
     shown_after (run_hook b evs) (run_hook b (evs ++ [Settle rid r]))).
Proof.
  split.
  - intros p. unfold run_store, run_hook. rewrite !run_snoc. split.
    + apply (display_after_call b _ (fetchStore_fetcher b)).
    + apply (display_after_call b _ (useFetch_fetcher b)).
  - intros rid r Hin. cbn zeta. unfold run_store, run_hook. rewrite !run_snoc.
    pose proof (agree_run b (fetchStore_fetch b) (useFetch_fetch b)
                  (fresh fetchStore_init) (fresh useFetch_init) evs
                  (fetchStore_fetcher b) (useFetch_fetcher b)) as Ha.
    destruct Ha as (_ & _ & _ & Hs).
    { split_and!; [done..|]. intros i. cbn. by rewrite lookup_empty. }
    split.
    + apply display_after_settle; [|done].
      apply (wf_run b _ (fetchStore_fetcher b)), wf_fresh.
    + apply display_after_settle.
      * apply (wf_run b _ (useFetch_fetcher b)), wf_fresh.
      * destruct Hin as [[c k] E]. specialize (Hs rid).
        unfold run_store in E. rewrite E in Hs. unfold in_flight.
        destruct (suspended (run (useFetch_fetch b) (fresh useFetch_init) evs) !! rid)
          as [ck|]; [eauto|destruct Hs].
Qed.

Lemma display_follows_fetch_witness :
  let evs := [Call "ditto"; Settle 0 (ok (VString "Ditto")); Call "mew"] in
  in_flight (run_store POKE_API evs) 1 /\
  display (state (run_store POKE_API (evs ++ [Settle 1 (Rejected VUndefined)])))
  = Stringified (VString "Ditto") /\
  display (state (run_store POKE_API
                    (evs ++ [Settle 1 (Rejected (VError "Failed to fetch"))])))
  = Text "Error!".
Proof.
  assert (in_flight (run_store POKE_API
            [Call "ditto"; Settle 0 (ok (VString "Ditto")); Call "mew"]) 1) as Hin.
  { apply in_flight_lookup. vm_compute. reflexivity. }
  split; [exact Hin|]. split.
  - apply (proj2 (display_follows_fetch POKE_API _) 1 (Rejected VUndefined) Hin).
  - apply (proj2 (display_follows_fetch POKE_API _) 1
             (Rejected (VError "Failed to fetch")) Hin).
Defined.

(** ** What a fetcher writes, and what it leaves alone *)

Lemma lookup_other_insert (o : obj) k k' v :
  k' <> k -> <[k := v]> o !! k' = o !! k'.
Proof. intros H. by rewrite lookup_insert_ne. Qed.

Lemma fetch_finish_other r (o : obj) k :
  k <> "loading" -> k <> "data" -> k <> "error" -> fetch_finish r o !! k = o !! k.
Proof.
  intros H1 H2 H3. unfold fetch_finish.
  destruct (promise_then r json); by rewrite !lookup_other_insert.
Qed.

Lemma step_other b body w ev k :
  fetcher b body -> wf w ->
  k <> "loading" -> k <> "data" -> k <> "error" ->
  state (step body w ev) !! k = state w !! k.
Proof.
  intros Hb Hw H1 H2 H3. destruct ev as [p|rid r]; cbn [step].
  - destruct (Hb p) as (k' & _ & ->). cbn. by rewrite lookup_other_insert.
  - destruct (suspended w !! rid) as [[cid k']|] eqn:E.
    + destruct Hw as [Hs _]. destruct (Hs _ _ _ E) as (Hk & _).
      rewrite (settle_in_flight _ _ _ _ _ E Hk). cbn. by apply fetch_finish_other.
    + by rewrite settle_not_in_flight.
Qed.

Lemma run_other b body w evs k :
  fetcher b body -> wf w ->
  k <> "loading" -> k <> "data" -> k <> "error" ->
  state (run body w evs) !! k = state w !! k.
Proof.
  intros Hb Hw H1 H2 H3. revert w Hw.
  induction evs as [|ev evs IH]; intros w Hw; [done|].
  change (run body w (ev :: evs)) with (run body (step body w ev) evs).
  rewrite IH by (by apply wf_step with (b := b)).
  by apply (step_other b).
Qed.

(** X2. Over every sequence of calls and completions a fetcher writes no
    property but [loading], [data] and [error]: without these three, the
    store is the object [fetchStore] created, holding only its [fetch]
    method, and the state of the hook is empty. *)
Theorem fetcher_writes_three_properties b evs :
  delete "loading" (delete "data" (delete "error" (state (run_store b evs))))
  = fetchStore_init /\
  delete "loading" (delete "data" (delete "error" (state (run_hook b evs))))
  = useFetch_init.
Proof.
  assert (forall body init,
            fetcher b body ->
            init !! "loading" = None -> init !! "data" = None -> init !! "error" = None ->
            delete "loading" (delete "data" (delete "error"
              (state (run body (fresh init) evs)))) = init) as Hgen.
  { intros body init Hb Hl Hd He. apply map_eq. intros k.
    destruct (decide (k = "loading")) as [->|H1].
    { by rewrite lookup_delete_eq. }
    rewrite lookup_delete_ne by done.
    destruct (decide (k = "data")) as [->|H2].
    { by rewrite lookup_delete_eq. }
    rewrite lookup_delete_ne by done.
    destruct (decide (k = "error")) as [->|H3].
    { by rewrite lookup_delete_eq. }
    rewrite lookup_delete_ne by done.
    by rewrite (run_other b body (fresh init) evs k Hb (wf_fresh init)). }
  split.
  - by apply (Hgen _ _ (fetchStore_fetcher b)).
  - by apply (Hgen _ _ (useFetch_fetcher b)).
Qed.

(** ** A call completes when its own request is answered *)

Lemma tidy_fresh init : tidy (fresh init).
Proof. split_and!; [done| |]; cbn; [intros ??? H|intros i H]; [by rewrite lookup_empty in H|lia]. Qed.

Lemma tidy_fetch_start b p k w : wf w -> tidy w -> tidy (fetch_start b p k w).
Proof.
  intros [Hs _] (Hlen & Hid & Hp). split_and!; cbn.
  - rewrite !length_app. cbn. lia.
  - intros rid cid k' H.
    apply lookup_insert_Some in H as [[<- [= <- <-]]|[_ H]]; [done|]. by eapply Hid.
  - intros i Hi. rewrite length_app in Hi. cbn in Hi.
    destruct (decide (i = length (promises w))) as [->|Hne].
    + rewrite lookup_app_r by done. rewrite Nat.sub_diag. cbn.
      by rewrite Hlen, lookup_insert_eq.
    + rewrite lookup_app_l by lia. rewrite lookup_insert_ne by lia. apply Hp. lia.
Qed.

Lemma tidy_settle rid r w : wf w -> tidy w -> tidy (settle rid r w).
Proof.
  intros [Hs _] (Hlen & Hid & Hp).
  destruct (suspended w !! rid) as [[cid k]|] eqn:E.
  2: { by rewrite settle_not_in_flight. }
  destruct (Hs _ _ _ E) as (Hk & _ & Hc). pose proof (Hid _ _ _ E) as ->.
  rewrite (settle_in_flight _ _ _ _ _ E Hk). split_and!; cbn.
  - by rewrite length_insert.
  - intros rid' cid' k' H. apply lookup_delete_Some in H as [_ H]. by eapply Hid.
  - intros i Hi. rewrite length_insert in Hi.
    destruct (decide (i = rid)) as [->|Hne].
    + rewrite list_lookup_insert_eq by done. by rewrite lookup_delete_eq.
    + rewrite list_lookup_insert_ne by done. rewrite lookup_delete_ne by done.
      by apply Hp.
Qed.

Lemma tidy_run b body w evs : fetcher b body -> wf w -> tidy w -> tidy (run body w evs).
Proof.
  intros Hb. revert w. induction evs as [|ev evs IH]; intros w Hw Ht; [done|].
  change (run body w (ev :: evs)) with (run body (step body w ev) evs).
  apply IH; [by apply wf_step with (b := b)|].
  destruct ev as [p|rid r]; cbn [step].
  - destruct (Hb p) as (k & _ & ->). by apply tidy_fetch_start.
  - by apply tidy_settle.
Qed.

(** X3. Over every sequence of calls and completions of the store there are
    as many promises as requests, and the promise of call number [i] is
    pending while request number [i] is in flight and resolved with
    [undefined] from then on: a call completes exactly when its own request
    is answered, whatever other calls overlap it. *)
Theorem promise_pending_while_in_flight b evs i :
  let w := run_store b evs in
  length (promises w) = length (requests w) /\
  promises w !! i =
  if decide (i < length (requests w))
  then Some (match suspended w !! i with
             | Some _ => Pending
             | None => Resolved VUndefined
             end)
  else None.
Proof.
  destruct (tidy_run b _ (fresh fetchStore_init) evs (fetchStore_fetcher b)
              (wf_fresh _) (tidy_fresh _)) as (Hlen & _ & Hp).
  cbn zeta. split; [done|]. unfold run_store. rewrite <- Hlen. case_decide.
  - by apply Hp.
  - apply lookup_ge_None. lia.
Qed.

(** Nothing in flight: [loading] is unset or false, never true. *)
Lemma idle_when_nothing_in_flight b body w evs :
  fetcher b body -> wf w ->
  (suspended w = ∅ -> obj_get (state w) "loading" = idle_loading w) ->
  suspended (run body w evs) = ∅ ->
  obj_get (state (run body w evs)) "loading" = idle_loading (run body w evs).
Proof.
  intros Hb. revert w. induction evs as [|ev evs IH]; intros w Hw Hi; [done|].
  change (run body w (ev :: evs)) with (run body (step body w ev) evs).
  apply IH; [by apply wf_step with (b := b)|].
  destruct ev as [p|rid r]; cbn [step].
  - destruct (Hb p) as (k & _ & ->). cbn. intros H.
    by apply insert_non_empty in H.
  - destruct (suspended w !! rid) as [[cid k]|] eqn:E.
    2: { by rewrite settle_not_in_flight. }
    destruct Hw as [Hs _]. destruct (Hs _ _ _ E) as (Hk & _ & Hc).
    rewrite (settle_in_flight _ _ _ _ _ E Hk). intros _. unfold idle_loading. cbn.
    rewrite fetch_finish_loading.
    destruct (promises w) as [|q qs]; [cbn in Hc; lia|]. by destruct cid.
Qed.

(** X4. Over every sequence of calls and completions of the store, also
    with overlapping calls: when [loading] reads true, some request is in
    flight. Once every request has been answered the flag is not left on. *)
Theorem loading_true_needs_request b evs :
  obj_get (state (run_store b evs)) "loading" = VBool true ->
  exists rid, in_flight (run_store b evs) rid /\ rid < length (requests (run_store b evs)).
Proof.
  intros Ht.
  destruct (map_choose_or_empty (suspended (run_store b evs))) as [(rid & ck & E)|He].
  - exists rid. split; [by exists ck|].
    destruct (wf_run b _ (fetchStore_fetcher b) _ evs (wf_fresh fetchStore_init))
      as [Hs _].
    destruct ck as [cid k]. by destruct (Hs _ _ _ E) as (_ & ? & _).
  - unfold run_store in *.
    rewrite (idle_when_nothing_in_flight b _ _ evs (fetchStore_fetcher b)
               (wf_fresh _)) in Ht; [|done|done].
    unfold idle_loading in Ht.
    by destruct (promises (run (fetchStore_fetch b) (fresh fetchStore_init) evs)).
Qed.

Lemma loading_true_needs_request_witness :
  let evs := [Call "a"; Call "b"; Settle 1 (ok VNull)] in
  obj_get (state (run_store TEST_URL (evs ++ [Call "c"]))) "loading" = VBool true /\
  exists rid, in_flight (run_store TEST_URL (evs ++ [Call "c"])) rid /\
              rid < length (requests (run_store TEST_URL (evs ++ [Call "c"]))).
Proof.
  split; [reflexivity|].
  apply (loading_true_needs_request TEST_URL
           ([Call "a"; Call "b"; Settle 1 (ok VNull)] ++ [Call "c"])).
  reflexivity.
Defined.

(** ** Where [data] and [error] come from *)

Lemma step_provenance b body w ev :
  fetcher b body -> wf w ->
  (obj_get (state (step body w ev)) "data" = obj_get (state w) "data" \/
   obj_get (state (step body w ev)) "data" ∈ answered_payloads [ev]) /\
  (obj_get (state (step body w ev)) "error" = obj_get (state w) "error" \/
   obj_get (state (step body w ev)) "error" = VUndefined \/
   obj_get (state (step body w ev)) "error" ∈ answered_failures [ev]).
Proof.
  intros Hb Hw. destruct ev as [p|rid r]; cbn [step].
  - destruct (Hb p) as (k & _ & ->). cbn.
    rewrite !obj_get_insert_ne by done. by split; left.
  - destruct (suspended w !! rid) as [[cid k]|] eqn:E.
    2: { rewrite settle_not_in_flight by done. by split; left. }
    destruct Hw as [Hs _]. destruct (Hs _ _ _ E) as (Hk & _).
    rewrite (settle_in_flight _ _ _ _ _ E Hk).
    unfold answered_payloads, answered_failures. cbn.
    destruct (promise_then r json) as [d|e] eqn:Er.
    + destruct (fetch_finish_fulfilled r d (state w) Er) as [-> ->].
      split; [right; apply list_elem_of_here|right; by left].
    + destruct (fetch_finish_rejected r e (state w) Er) as [-> Hd].
      split; [left; unfold obj_get; by rewrite Hd|right; right; apply list_elem_of_here].
Qed.

Lemma run_provenance b body w evs :
  fetcher b body -> wf w ->
  (obj_get (state (run body w evs)) "data" = obj_get (state w) "data" \/
   obj_get (state (run body w evs)) "data" ∈ answered_payloads evs) /\
  (obj_get (state (run body w evs)) "error" = obj_get (state w) "error" \/
   obj_get (state (run body w evs)) "error" = VUndefined \/
   obj_get (state (run body w evs)) "error" ∈ answered_failures evs).
Proof.
  intros Hb. revert w. induction evs as [|ev evs IH]; intros w Hw.
  { by split; left. }
  change (run body w (ev :: evs)) with (run body (step body w ev) evs).
  destruct (IH _ (wf_step b body Hb w ev Hw)) as [Hd He].
  destruct (step_provenance b body w ev Hb Hw) as [Hd1 He1].
  assert (forall x, x ∈ answered_payloads evs -> x ∈ answered_payloads (ev :: evs)) as Hp.
  { intros x. unfold answered_payloads. cbn. destruct ev; [done|].
    destruct (promise_then r json); intros H;
      first [exact H|by apply list_elem_of_further]. }
  assert (forall x, x ∈ answered_payloads [ev] -> x ∈ answered_payloads (ev :: evs)) as Hp1.
  { intros x. unfold answered_payloads. cbn. destruct ev; [by inversion 1|].
    destruct (promise_then r json); [|by inversion 1].
    intros ->%list_elem_of_singleton. apply list_elem_of_here. }
  assert (forall x, x ∈ answered_failures evs -> x ∈ answered_failures (ev :: evs)) as Hf.
  { intros x. unfold answered_failures. cbn. destruct ev; [done|].
    destruct (promise_then r json); intros H;
      first [exact H|by apply list_elem_of_further]. }
  assert (forall x, x ∈ answered_failures [ev] -> x ∈ answered_failures (ev :: evs)) as Hf1.
  { intros x. unfold answered_failures. cbn. destruct ev; [by inversion 1|].
    destruct (promise_then r json); [by inversion 1|].
    intros ->%list_elem_of_singleton. apply list_elem_of_here. }
  split.
  - destruct Hd as [->|Hd]; [|right; by apply Hp].
    destruct Hd1 as [->|Hd1]; [by left|right; by apply Hp1].
  - destruct He as [->|[He|He]]; [|by right; left|right; right; by apply Hf].
    destruct He1 as [->|[He1|He1]]; [by left|by right; left|right; right; by apply Hf1].
Qed.

(** X5. Over every sequence of calls and completions, in the store and in
    the hook: [data] is undefined or the decoded body of one of the answers
    received, and [error] is undefined or the value thrown by one of the
    failing answers. A fetcher shows nothing the network did not deliver. *)
Theorem data_and_error_come_from_answers b evs :
  let payload_or_unset (o : obj) :=
    obj_get o "data" = VUndefined \/ obj_get o "data" ∈ answered_payloads evs in
  let failure_or_unset (o : obj) :=
    obj_get o "error" = VUndefined \/ obj_get o "error" ∈ answered_failures evs in
  (payload_or_unset (state (run_store b evs)) /\
   failure_or_unset (state (run_store b evs))) /\
  (payload_or_unset (state (run_hook b evs)) /\
   failure_or_unset (state (run_hook b evs))).
Proof.
  cbn zeta.
  destruct (run_provenance b _ (fresh fetchStore_init) evs
              (fetchStore_fetcher b) (wf_fresh _)) as [Hd He].
  destruct (run_provenance b _ (fresh useFetch_init) evs
              (useFetch_fetcher b) (wf_fresh _)) as [Hd' He'].
  split_and!; unfold run_store, run_hook.
  - destruct Hd as [->|?]; [by left|by right].
  - destruct He as [->|[?|?]]; [by left|by left|by right].
  - destruct Hd' as [->|?]; [by left|by right].
  - destruct He' as [->|[?|?]]; [by left|by left|by right].
Qed.

(** ** Fetches made one after the other *)

Lemma fetch_and_wait_state b body w p r :
  fetcher b body ->
  fetch_state (state (fetch_and_wait body w (p, r))) =
  match promise_then r json with
  | Fulfilled d => (VBool false, d, VUndefined)
  | Rejected e => (VBool false, obj_get (state w) "data", e)
  end.
Proof.
  intros Hb. unfold fetch_and_wait. cbn.
  destruct (settle_call b body Hb p r w) as (-> & _).
  rewrite fetch_state_finish. destruct (promise_then r json); [done|].
  by rewrite obj_get_insert_ne.
Qed.

Lemma fetch_sequence_state b body w calls :
  fetcher b body ->
  let w' := foldl (fetch_and_wait body) w calls in
  obj_get (state w') "data" = last_payload (obj_get (state w) "data") (snd <$> calls) /\
  obj_get (state w') "error" =
    match last calls with
    | None => obj_get (state w) "error"
    | Some (_, r) =>
        match promise_then r json with
        | Fulfilled _ => VUndefined
        | Rejected e => e
        end
    end /\
  obj_get (state w') "loading" =
    match calls with
    | [] => obj_get (state w) "loading"
    | _ :: _ => VBool false
    end /\
  requests w' = requests w ++ ((fun pa => b +:+ fst pa) <$> calls).
Proof.
  intros Hb. induction calls as [|[p r] calls IH] using rev_ind.
  { cbn. by rewrite app_nil_r. }
  cbn zeta. rewrite foldl_app, fmap_app, last_snoc. cbn [foldl].
  destruct IH as (Hd & _ & _ & Hr).
  pose proof (fetch_and_wait_state b body (foldl (fetch_and_wait body) w calls) p r Hb)
    as Hs.
  unfold fetch_state in Hs.
  unfold last_payload. rewrite foldl_app. cbn [fmap list_fmap foldl snd].
  fold (last_payload (obj_get (state w) "data") (snd <$> calls)).
  split_and!.
  - destruct (promise_then r json); injection Hs as _ Hd' _; [done|by rewrite Hd', Hd].
  - by destruct (promise_then r json); injection Hs as _ _ He'.
  - destruct (promise_then r json); injection Hs as Hl _ _;
      rewrite Hl; by destruct calls.
  - destruct (settle_call b body Hb p r (foldl (fetch_and_wait body) w calls))
      as (_ & Hq & _).
    change (requests (fetch_and_wait body (foldl (fetch_and_wait body) w calls) (p, r))
            = requests w ++ ((fun pa => b +:+ fst pa) <$> calls ++ [(p, r)])).
    unfold fetch_and_wait at 1. cbn [fst snd]. rewrite Hq, Hr, fmap_app.
    by rewrite <- app_assoc.
Qed.

(** X6. When fetches are made one after the other, each awaited before the
    next, from any prior state, in the store and in the hook: [data] ends as
    the body of the last fetch that succeeded (the prior [data] if none
    did), [error] tells of the last fetch only (the thrown value if it
    failed, undefined if it succeeded), [loading] is false after at least
    one fetch, and the requests made are base address + path of each fetch,
    in order. *)
Theorem fetches_in_sequence b w calls :
  let summary (w' : world) :=
    obj_get (state w') "data" = last_payload (obj_get (state w) "data") (snd <$> calls) /\
    obj_get (state w') "error" =
      match last calls with
      | None => obj_get (state w) "error"
      | Some (_, r) =>
          match promise_then r json with
          | Fulfilled _ => VUndefined
          | Rejected e => e
          end
      end /\
    obj_get (state w') "loading" =
      match calls with
      | [] => obj_get (state w) "loading"
      | _ :: _ => VBool false
      end /\
    requests w' = requests w ++ ((fun pa => b +:+ fst pa) <$> calls) in
  summary (foldl (fetch_and_wait (fetchStore_fetch b)) w calls) /\
  summary (foldl (fetch_and_wait (useFetch_fetch b)) w calls).
Proof.
  cbn zeta. split.
  - apply (fetch_sequence_state b _ w calls (fetchStore_fetcher b)).
  - apply (fetch_sequence_state b _ w calls (useFetch_fetcher b)).
Qed.

Example fetches_in_sequence_scenario :
  let w := foldl (fetch_and_wait (fetchStore_fetch POKE_API)) (fresh fetchStore_init)
             [("ditto", ok (VString "Ditto"));
              ("nobody", Fulfilled (Response (Rejected (VError "Unexpected token"))));
              ("mew", Rejected (VError "Failed to fetch"))] in
  fetch_state (state w)
  = (VBool false, VString "Ditto", VError "Failed to fetch").
Proof. reflexivity. Qed.

(** ** The version of the hook with plain [setState] calls, continued *)

Lemma closure_call captured b p :
  exists k,
    (forall r cid w,
       exec cid (k r) w =
       World (closure_finish captured r) (requests w) (suspended w)
             (<[cid := Resolved VUndefined]> (promises w))) /\
    forall w,
      call (useFetch_closure_fetch captured b p) w =
      World {[ "loading" := VBool true ]} (requests w ++ [b +:+ p])
            (<[length (requests w) := (length (promises w), k)]> (suspended w))
            (promises w ++ [Pending]).
Proof.
  eexists. split; cycle 1.
  - intros w. unfold call. cbn. reflexivity.
  - intros [[[d|e]]|e] cid w; reflexivity.
Qed.

Lemma closure_finish_current (o : obj) r :
  closure_finish o r = fetch_finish r (<["loading" := VBool true]> o).
Proof.
  unfold closure_finish, fetch_finish.
  destruct (promise_then r json); apply map_eq; intros k;
    rewrite !lookup_insert; repeat case_decide; congruence.
Qed.

(** X7. A call of the version of [useFetch] with plain [setState] calls
    replaces the state by [{ loading: true }] and, when its request is
    answered, by the state of the render it was created in, [captured],
    with its own result and [loading] false: whatever the state holds by
    then, written by other calls in between, is lost. The final [useFetch]
    in the same situation updates the state it finds. *)
Theorem closure_fetch_overwrites_with_snapshot captured b p w current r :
  let answered (w1 : world) :=
    settle (length (requests w)) r
           (World current (requests w1) (suspended w1) (promises w1)) in
  state (call (useFetch_closure_fetch captured b p) w) = {[ "loading" := VBool true ]} /\
  state (answered (call (useFetch_closure_fetch captured b p) w))
  = closure_finish captured r /\
  state (answered (call (useFetch_fetch b p) w)) = fetch_finish r current.
Proof.
  cbn zeta. destruct (closure_call captured b p) as (k & Hk & ->).
  destruct (useFetch_fetcher b p) as (k' & Hk' & ->). cbn.
  split; [done|]. unfold settle. cbn. rewrite !lookup_insert_eq.
  by rewrite Hk, Hk'.
Qed.

(** X8. A single call of the version of [useFetch] with plain [setState]
    calls, created in the current render and followed by its own answer,
    leaves exactly the state, requests and promises the final [useFetch]
    leaves: the two versions differ only while the request is pending and
    when calls overlap. *)
Theorem closure_fetch_alone_same_as_final b p w r :
  let wc := settle (length (requests w)) r
                   (call (useFetch_closure_fetch (state w) b p) w) in
  let wn := settle (length (requests w)) r (call (useFetch_fetch b p) w) in
  state wc = state wn /\ requests wc = requests wn /\ promises wc = promises wn.
Proof.
  cbn zeta. destruct (closure_call (state w) b p) as (k & Hk & ->).
  destruct (useFetch_fetcher b p) as (k' & Hk' & ->).
  unfold settle, fetch_start. cbn. rewrite !lookup_insert_eq. rewrite Hk, Hk'. cbn.
  split_and!; [|done..]. apply closure_finish_current.
Qed.

(** ** The title holder, continued *)

Lemma title_onChange_same ev pg : titleStore_onChange ev pg = useTitle_onChange ev pg.
Proof.
  unfold titleStore_onChange, useTitle_onChange, store_set_value, setTitle.
  destruct (String.eqb_spec (held pg) (target_value ev)) as [E|E]; [|done].
  destruct pg. cbn in *. by subst.
Qed.

Lemma title_writes_fold evs pg :
  title_writes (foldl (fun q e => titleStore_onChange e q) pg evs)
  = title_writes pg ++ changes (held pg) (target_value <$> evs).
Proof.
  revert pg. induction evs as [|ev evs IH]; intros pg.
  { cbn. by rewrite app_nil_r. }
  cbn [foldl fmap list_fmap changes]. rewrite IH.
  unfold titleStore_onChange, store_set_value.
  destruct (String.eqb_spec (held pg) (target_value ev)) as [E|E]; cbn.
  - by rewrite E.
  - by rewrite <- app_assoc.
Qed.

Lemma foldl_title_same evs pg :
  foldl (fun q e => titleStore_onChange e q) pg evs
  = foldl (fun q e => useTitle_onChange e q) pg evs.
Proof.
  revert pg. induction evs as [|ev evs IH]; intros pg; [done|].
  cbn [foldl]. by rewrite IH, title_onChange_same.
Qed.

(** X9. The two title holders are the same function of the events, and
    from construction on, over any sequence of change events,
    [document.title] has been assigned the initial title and then each
    value that differed from the one held before it, in order: a change
    event repeating the held value assigns nothing. *)
Theorem title_assigned_once_per_change initalTitle doc evs :
  (forall ev pg, titleStore_onChange ev pg = useTitle_onChange ev pg) /\
  titleStore initalTitle doc = useTitle initalTitle doc /\
  title_writes (foldl (fun q e => titleStore_onChange e q) (titleStore initalTitle doc) evs)
  = initalTitle :: changes initalTitle (target_value <$> evs) /\
  title_writes (foldl (fun q e => useTitle_onChange e q) (useTitle initalTitle doc) evs)
  = initalTitle :: changes initalTitle (target_value <$> evs).
Proof.
  split_and!.
  - apply title_onChange_same.
  - done.
  - by rewrite title_writes_fold.
  - rewrite <- foldl_title_same. by rewrite title_writes_fold.
Qed.

(** ** The pokemon lookup *)

Lemma held_titleStore_onChange ev pg : held (titleStore_onChange ev pg) = target_value ev.
Proof.
  unfold titleStore_onChange, store_set_value.
  by destruct (String.eqb (held pg) (target_value ev)).
Qed.

Lemma held_useTitle_onChange ev pg : held (useTitle_onChange ev pg) = target_value ev.
Proof. rewrite <- title_onChange_same. apply held_titleStore_onChange. Qed.

Lemma pokeStore_fold evs pk :
  data (foldl pokeStore_step pk evs)
  = run (fetchStore_fetch POKE_API) (data pk) (poke_fetch_events (held (name pk)) evs) /\
  name (foldl pokeStore_step pk evs)
  = foldl (fun q e => titleStore_onChange e q) (name pk) (typed evs).
Proof.
  revert pk. induction evs as [|[ev|rid r] evs IH]; intros pk; [done|..].
  - cbn [foldl pokeStore_step poke_fetch_events typed omap list_omap].
    destruct (IH (pokeStore_onChange ev pk)) as [Hd Hn]. rewrite Hd, Hn. clear IH Hd Hn.
    unfold pokeStore_onChange, pokeStore_effect.
    destruct (String.eqb_spec (held (name pk)) (target_value ev)) as [E|E];
      cbn [name data]; rewrite held_titleStore_onChange; [by rewrite E|done].
  - cbn [foldl pokeStore_step poke_fetch_events typed omap list_omap].
    destruct (IH (Pokemon (name pk) (settle rid r (data pk)))) as [Hd Hn].
    by rewrite Hd, Hn.
Qed.

Lemma usePokemon_fold evs pk :
  data (foldl usePokemon_step pk evs)
  = run (useFetch_fetch POKE_API) (data pk) (poke_fetch_events (held (name pk)) evs) /\
  name (foldl usePokemon_step pk evs)
  = foldl (fun q e => useTitle_onChange e q) (name pk) (typed evs).
Proof.
  revert pk. induction evs as [|[ev|rid r] evs IH]; intros pk; [done|..].
  - cbn [foldl usePokemon_step poke_fetch_events typed omap list_omap].
    destruct (IH (usePokemon_onNameChange ev pk)) as [Hd Hn]. rewrite Hd, Hn.
    clear IH Hd Hn. unfold usePokemon_onNameChange, usePokemon_effect.
    destruct (String.eqb_spec (held (name pk)) (target_value ev)) as [E|E];
      cbn [name data]; rewrite held_useTitle_onChange; [by rewrite E|done].
  - cbn [foldl usePokemon_step poke_fetch_events typed omap list_omap].
    destruct (IH (Pokemon (name pk) (settle rid r (data pk)))) as [Hd Hn].
    by rewrite Hd, Hn.
Qed.

Lemma called_paths_poke_fetch_events current evs :
  called_paths (poke_fetch_events current evs) = changes current (typed_values evs).
Proof.
  revert current. unfold typed_values.
  induction evs as [|[ev|rid r] evs IH]; intros current; [done|..].
  - cbn [poke_fetch_events typed omap list_omap fmap list_fmap changes].
    destruct (String.eqb current (target_value ev)); [apply IH|].
    unfold called_paths. cbn. f_equal. apply IH.
  - cbn [poke_fetch_events typed omap list_omap]. apply IH.
Qed.

Lemma last_changes current vs :
  last (current :: changes current vs) = Some (default current (last vs)).
Proof.
  revert current. induction vs as [|v vs IH]; intros current; [done|].
  cbn [changes]. destruct (String.eqb_spec current v) as [<-|E].
  - rewrite IH. rewrite last_cons. by destruct (last vs).
  - rewrite last_cons_cons, IH. rewrite (last_cons v vs). by destruct (last vs).
Qed.

(** X10. The composed store of pokeStore.js, from construction on and over
    any sequence of edits of the name and answers of the network: its
    fetcher has been called once for the initial name and once for every
    edit that changed the name, and for nothing else, so the URLs requested
    are [POKE_API + name] for these names in order; the last request made is
    the one for the name now held, and the document title is that name. *)
Theorem pokeStore_fetches_each_name initialName doc evs :
  let pk := pokeStore_run initialName doc evs in
  data pk = run_store POKE_API (Call initialName :: poke_fetch_events initialName evs) /\
  requests (data pk)
  = (fun n => POKE_API +:+ n) <$> (initialName :: changes initialName (typed_values evs)) /\
  last (requests (data pk)) = Some (POKE_API +:+ held (name pk)) /\
  held (name pk) = default initialName (last (typed_values evs)) /\
  document_title (name pk) = held (name pk).
Proof.
  cbn zeta. unfold pokeStore_run.
  destruct (pokeStore_fold evs (pokeStore initialName doc)) as [Hd Hn].
  assert (data (foldl pokeStore_step (pokeStore initialName doc) evs)
          = run_store POKE_API (Call initialName :: poke_fetch_events initialName evs))
    as Hdata by (by rewrite Hd).
  assert (requests (data (foldl pokeStore_step (pokeStore initialName doc) evs))
          = (fun n => POKE_API +:+ n)
              <$> (initialName :: changes initialName (typed_values evs))) as Hreq.
  { rewrite Hdata. unfold run_store.
    rewrite (run_requests POKE_API _ (fetchStore_fetcher POKE_API) _ _ (wf_fresh _)).
    cbn [requests fresh app]. f_equal.
    unfold called_paths. cbn [omap list_omap]. f_equal.
    apply called_paths_poke_fetch_events. }
  destruct (foldl_onChange_synced (typed evs) (titleStore initialName doc) eq_refl)
    as [[Hheld Hdoc] _].
  change (name (pokeStore initialName doc)) with (titleStore initialName doc) in Hn.
  cbn zeta in Hheld, Hdoc. rewrite <- Hn in Hheld, Hdoc.
  change (held (titleStore initialName doc)) with initialName in Hheld.
  split_and!; [done|done| |done|done].
  rewrite Hreq, fmap_last, last_changes. cbn. by rewrite Hheld.
Qed.

(** X11. The hook composition of usePokemon.js and the composed store of
    pokeStore.js, over the same edits and answers: the same name and
    document title, the same requests and promises, and the same
    {loading, data, error}; the object [usePokemon] returns reads the name
    held and shows, in its view, what the store's view shows. *)
Theorem usePokemon_agrees_with_pokeStore initialName doc evs :
  let ps := pokeStore_run initialName doc evs in
  let ph := usePokemon_run initialName doc evs in
  name ph = name ps /\
  requests (data ph) = requests (data ps) /\
  promises (data ph) = promises (data ps) /\
  fetch_state (state (data ph)) = fetch_state (state (data ps)) /\
  obj_get (usePokemon_result ph) "name" = VString (held (name ps)) /\
  fetch_state (usePokemon_result ph) = fetch_state (state (data ps)) /\
  display (usePokemon_result ph) = display (state (data ps)).
Proof.
  cbn zeta. unfold pokeStore_run, usePokemon_run.
  destruct (pokeStore_fold evs (pokeStore initialName doc)) as [Hd Hn].
  destruct (usePokemon_fold evs (usePokemon initialName doc)) as [Hd' Hn'].
  assert (name (foldl usePokemon_step (usePokemon initialName doc) evs)
          = name (foldl pokeStore_step (pokeStore initialName doc) evs)) as Hname.
  { rewrite Hn, Hn'.
    change (name (usePokemon initialName doc)) with (useTitle initialName doc).
    change (name (pokeStore initialName doc)) with (titleStore initialName doc).
    by rewrite foldl_title_same. }
  destruct (agree_run POKE_API (fetchStore_fetch POKE_API) (useFetch_fetch POKE_API)
              (fresh fetchStore_init) (fresh useFetch_init)
              (Call initialName :: poke_fetch_events initialName evs)
              (fetchStore_fetcher POKE_API) (useFetch_fetcher POKE_API))
    as (Hst & Hr & Hp & _).
  { split_and!; [done..|]. intros rid. cbn. by rewrite lookup_empty. }
  assert (fetch_state (usePokemon_result
                         (foldl usePokemon_step (usePokemon initialName doc) evs))
          = fetch_state (state (data (foldl usePokemon_step
                                        (usePokemon initialName doc) evs)))) as Hres.
  { unfold usePokemon_result, fetch_state. by rewrite !obj_get_insert_ne by done. }
  assert (fetch_state (state (data (foldl usePokemon_step
                                      (usePokemon initialName doc) evs)))
          = fetch_state (state (data (foldl pokeStore_step
                                        (pokeStore initialName doc) evs)))) as Hfs.
  { by rewrite Hd, Hd'. }
  split_and!.
  - done.
  - by rewrite Hd, Hd'.
  - by rewrite Hd, Hd'.
  - done.
  - unfold usePokemon_result. rewrite obj_get_insert_ne by done.
    by rewrite obj_get_insert_eq, Hname.
  - by rewrite Hres.
  - apply display_fetch_state. by rewrite Hres.
Qed.

(** X12. In the composed store, when the name is changed while the request
    for the initial name is outstanding and the network answers the later
    request first: in the end the name held and the document title are the
    new name, nothing is loading, and the view shows the body fetched for
    the initial name. *)
Theorem pokeStore_shows_earlier_name n1 n2 doc d1 d2 :
  n1 <> n2 ->
  let pk := pokeStore_run n1 doc
              [Typed (ChangeEvent n2); Answered 1 (ok d2); Answered 0 (ok d1)] in
  held (name pk) = n2 /\
  document_title (name pk) = n2 /\
  requests (data pk) = [POKE_API +:+ n1; POKE_API +:+ n2] /\
  suspended (data pk) = ∅ /\
  obj_get (state (data pk)) "loading" = VBool false /\
  display (state (data pk)) = Stringified d1.
Proof.
  intros Hne. pose proof (proj2 (String.eqb_neq n1 n2) Hne) as Hb.
  cbn zeta. unfold pokeStore_run. cbn [foldl pokeStore_step].
  unfold pokeStore_onChange, titleStore_onChange, store_set_value, pokeStore,
    pokeStore_effect, titleStore, autoEffect, title_effect, set_document_title.
  cbn [name data held target_value document_title title_writes].
  rewrite !Hb. cbn [name data held target_value document_title title_writes].
  split_and!; reflexivity.
Qed.

Lemma pokeStore_shows_earlier_name_witness :
  let pk := pokeStore_run "ditto" "React App"
              [Typed (ChangeEvent "mew"); Answered 1 (ok (VString "Mew"));
               Answered 0 (ok (VString "Ditto"))] in
  held (name pk) = "mew" /\
  document_title (name pk) = "mew" /\
  requests (data pk) = [POKE_API +:+ "ditto"; POKE_API +:+ "mew"] /\
  suspended (data pk) = ∅ /\
  obj_get (state (data pk)) "loading" = VBool false /\
  display (state (data pk)) = Stringified (VString "Ditto").
Proof.
  apply (pokeStore_shows_earlier_name "ditto" "mew" "React App"
           (VString "Ditto") (VString "Mew")).
  discriminate.
Defined.

(** ** Completions among overlapping calls *)

(** X13. Over every sequence of calls and completions of the store, when
    the network answers a request in flight, whatever other calls are
    outstanding: the call waiting for it resolves and its request is no
    longer in flight, [loading] is false, no request is issued, and for a
    decoded body [data] is that body and [error] undefined, while for a
    failure [error] is the thrown value and the [data] property is the one
    the state had just before the answer. *)
Theorem completion_on_any_trace b evs rid r :
  in_flight (run_store b evs) rid ->
  let w := run_store b evs in
  let w' := run_store b (evs ++ [Settle rid r]) in
  promises w' !! rid = Some (Resolved VUndefined) /\
  suspended w' !! rid = None /\
  requests w' = requests w /\
  obj_get (state w') "loading" = VBool false /\
  match promise_then r json with
  | Fulfilled d => obj_get (state w') "data" = d /\ obj_get (state w') "error" = VUndefined
  | Rejected e => obj_get (state w') "error" = e /\ state w' !! "data" = state w !! "data"
  end.
Proof.
  intros [[cid k] E]. cbn zeta. unfold run_store in *. rewrite run_snoc. cbn [step].
  pose proof (wf_run b _ (fetchStore_fetcher b) _ evs (wf_fresh fetchStore_init)) as Hw.
  destruct (tidy_run b _ _ evs (fetchStore_fetcher b) (wf_fresh fetchStore_init)
              (tidy_fresh _)) as (_ & Hid & _).
  destruct Hw as [Hs _]. destruct (Hs _ _ _ E) as (Hk & _ & Hc).
  pose proof (Hid _ _ _ E) as ->.
  rewrite (settle_in_flight _ _ _ _ _ E Hk). cbn. split_and!.
  - by apply list_lookup_insert_eq.
  - apply lookup_delete_eq.
  - done.
  - apply fetch_finish_loading.
  - destruct (promise_then r json) as [d|e] eqn:Er.
    + by apply fetch_finish_fulfilled.
    + by apply fetch_finish_rejected.
Qed.

Lemma completion_on_any_trace_witness :
  let evs := [Call "a"; Call "b"; Settle 1 (ok (VString "B"))] in
  in_flight (run_store TEST_URL evs) 0 /\
  obj_get (state (run_store TEST_URL (evs ++ [Settle 0 (Rejected (VError "Failed to fetch"))])))
          "error" = VError "Failed to fetch" /\
  state (run_store TEST_URL (evs ++ [Settle 0 (Rejected (VError "Failed to fetch"))])) !! "data"
  = Some (VString "B").
Proof.
  assert (in_flight (run_store TEST_URL [Call "a"; Call "b"; Settle 1 (ok (VString "B"))]) 0)
    as Hin.
  { apply in_flight_lookup. vm_compute. reflexivity. }
  split; [exact Hin|].
  destruct (completion_on_any_trace TEST_URL _ 0 (Rejected (VError "Failed to fetch")) Hin)
    as (_ & _ & _ & _ & He & Hd).
  split; [exact He|]. rewrite Hd. reflexivity.
Defined.

(** X14. Over every sequence of calls and completions of the store, a
    further call or answer disturbs no other outstanding call: after a call
    every request that was in flight still is, and so is the new one; after
    the answer to request [rid] every other request is in flight exactly if
    it was before. Nothing is cancelled and nothing is retried. *)
Theorem outstanding_calls_undisturbed b evs :
  let w := run_store b evs in
  (forall p rid,
     in_flight (run_store b (evs ++ [Call p])) rid <->
     in_flight w rid \/ rid = length (requests w)) /\
  (forall rid r rid',
     rid' <> rid ->
     (in_flight (run_store b (evs ++ [Settle rid r])) rid' <-> in_flight w rid')).
Proof.
  cbn zeta. unfold run_store. split.
  - intros p rid. rewrite run_snoc. cbn [step].
    destruct (fetchStore_fetcher b p) as (k & _ & ->). unfold in_flight. cbn.
    destruct (decide (length (requests (run (fetchStore_fetch b)
                                          (fresh fetchStore_init) evs)) = rid))
      as [<-|Hne].
    + rewrite lookup_insert_eq. split; [by right|eauto].
    + rewrite lookup_insert_ne by done. split; [by left|]. by intros [?|?].
  - intros rid r rid' Hne. rewrite run_snoc. cbn [step].
    pose proof (wf_run b _ (fetchStore_fetcher b) _ evs (wf_fresh fetchStore_init))
      as [Hs _].
    destruct (suspended (run (fetchStore_fetch b) (fresh fetchStore_init) evs) !! rid)
      as [[cid k]|] eqn:E.
    + destruct (Hs _ _ _ E) as (Hk & _).
      rewrite (settle_in_flight _ _ _ _ _ E Hk). unfold in_flight. cbn.
      by rewrite lookup_delete_ne.
    + by rewrite settle_not_in_flight.
Qed.

Lemma outstanding_calls_undisturbed_witness :
  let evs := [Call "a"; Call "b"] in
  in_flight (run_store TEST_URL (evs ++ [Settle 0 (ok VNull)])) 1 /\
  in_flight (run_store TEST_URL (evs ++ [Call "c"])) 2.
Proof.
  split.
  - apply (proj2 (outstanding_calls_undisturbed TEST_URL [Call "a"; Call "b"])
             0 (ok VNull) 1); [discriminate|].
    apply in_flight_lookup. vm_compute. reflexivity.
  - apply (proj1 (outstanding_calls_undisturbed TEST_URL [Call "a"; Call "b"]) "c" 2).
    right. reflexivity.
Defined.
